(** * MillieStarDefender: the simulation core of [src/Game.tsx]

    A shallow embedding of the game component's state and of the functions
    that change it: the progression controller ([resetGame], [nextRound],
    [nextLevel], [replayPreviousLevel], [exitToMenu], [togglePause]), the
    spawn policy ([spawnRocket]), the input resolver ([handleCanvasClick],
    [fireInterceptor]) and the per-frame [update].

    Numbers.  Every JavaScript number is an IEEE 754 binary64 value.  The
    geometric quantities (coordinates, speeds, radii, time stamps) are
    modelled by Rocq's primitive [float], which is that format with the same
    rounding, the same NaN and infinities, and the same comparisons.  The
    counters (score, level, round, ammunition, shields, explosion timer,
    structure and battery ids) only ever hold small integers, on which
    binary64 arithmetic is exact; they are modelled by [Z].

    State.  The component keeps [gameState], [score], [level] and [round] in
    React state and the entity pools in ref cells; [Game] gathers them in one
    record and every function passes it explicitly.  A functional state
    update [setScore(s => s + k)] adds [k] to the field; a read of [score]
    inside [update] sees the value the frame loop closed over, that is the
    value at the start of the step. *)

From Stdlib Require Import ZArith List Bool Lia Floats.
Import ListNotations.
Local Open Scope Z_scope.

(* Decimal literals such as 0.3 denote the nearest binary64 value, as in
   JavaScript. *)
#[local] Set Warnings "-inexact-float".

(** ** Types and constants (lines 8-58) *)

Inductive GameState : Set :=
  START | PLAYING | PAUSED | WON | LOST | ROUND_END.

Module Point.
Record t : Set := mk { x : float; y : float }.
End Point.

Module Rocket.
Record t : Set := mk {
  id : float;
  start : Point.t;
  pos : Point.t;
  target : Point.t;
  speed : float;
  destroyed : bool
}.
Definition set_pos (p : Point.t) (r : t) : t :=
  mk (id r) (start r) p (target r) (speed r) (destroyed r).
Definition set_destroyed (d : bool) (r : t) : t :=
  mk (id r) (start r) (pos r) (target r) (speed r) d.
End Rocket.

Inductive FlightState : Set := FLYING | EXPLODING.

Module Interceptor.
Record t : Set := mk {
  id : float;
  start : Point.t;
  pos : Point.t;
  target : Point.t;
  speed : float;
  state : FlightState;
  explosionRadius : float;
  maxExplosionRadius : float;
  explosionTimer : Z
}.
Definition set_pos (p : Point.t) (i : t) : t :=
  mk (id i) (start i) p (target i) (speed i) (state i)
     (explosionRadius i) (maxExplosionRadius i) (explosionTimer i).
Definition set_state (s : FlightState) (i : t) : t :=
  mk (id i) (start i) (pos i) (target i) (speed i) s
     (explosionRadius i) (maxExplosionRadius i) (explosionTimer i).
Definition set_explosion (r : float) (n : Z) (i : t) : t :=
  mk (id i) (start i) (pos i) (target i) (speed i) (state i)
     r (maxExplosionRadius i) n.
End Interceptor.

Module City.
Record t : Set := mk { id : Z; x : float; active : bool; shields : Z }.
End City.

Module Battery.
Record t : Set := mk {
  id : Z;
  x : float;
  missiles : Z;
  maxMissiles : Z;
  active : bool
}.
End Battery.

Definition WORLD_WIDTH : float := 1000%float.
Definition WORLD_HEIGHT : float := 800%float.
Definition EXPLOSION_SPEED : float := 2.0%float.
Definition INTERCEPTOR_SPEED : float := 12%float.
Definition ROCKET_BASE_SPEED : float := 0.5%float.
Definition WIN_SCORE_PER_LEVEL : Z := 200.
Definition MAX_LEVELS : Z := 10.

(** The component: React state and the four ref cells (lines 112-135). *)
Record Game : Set := mkGame {
  gameState : GameState;
  score : Z;
  level : Z;
  round : Z;
  rockets : list Rocket.t;
  interceptors : list Interceptor.t;
  cities : list City.t;
  batteries : list Battery.t
}.

Definition initialCities : list City.t :=
  [ City.mk 1 200%float true 3; City.mk 2 300%float true 3;
    City.mk 3 400%float true 3; City.mk 4 600%float true 3;
    City.mk 5 700%float true 3; City.mk 6 800%float true 3 ].

Definition initialBatteries : list Battery.t :=
  [ Battery.mk 0 100%float 20 20 true;
    Battery.mk 1 500%float 40 40 true;
    Battery.mk 2 900%float 20 20 true ].

(** The component as first mounted. *)
Definition mounted : Game :=
  mkGame START 0 1 1 [] [] initialCities initialBatteries.

(** What a step draws from outside: [Math.random()] for the spawn target
    (already turned into the index [Math.floor(Math.random() * n)], which lies
    below [n]) and for the spawn abscissa, and the identifiers
    [Date.now() + Math.random()], here indexed by the length of the pool the
    new entity is pushed on. *)
Record Env : Set := mkEnv {
  pickTarget : nat;
  randomUnit : float;
  freshId : nat -> float
}.

(** ** Array helpers *)

(** [Array.prototype.find], by position: the first element satisfying [p]. *)
Fixpoint findIndex {A : Type} (p : A -> bool) (l : list A) : option nat :=
  match l with
  | [] => None
  | a :: l' =>
      if p a then Some O
      else match findIndex p l' with
           | Some n => Some (S n)
           | None => None
           end
  end.

(** In-place mutation of the object at position [n] of an array. *)
Fixpoint mutateAt {A : Type} (n : nat) (f : A -> A) (l : list A) : list A :=
  match l, n with
  | [], _ => []
  | a :: l', O => f a :: l'
  | a :: l', S n' => a :: mutateAt n' f l'
  end.

(** [Z] to binary64, correctly rounded (exact below 2^53). *)
Definition Z2float (z : Z) : float :=
  SF2Prim (binary_normalize prec emax z 0 false).

(** ** Initialization and progression (lines 141-209, 282-295) *)

Definition refill (b : Battery.t) : Battery.t :=
  Battery.mk (Battery.id b) (Battery.x b) (Battery.maxMissiles b)
             (Battery.maxMissiles b) true.

Definition rebuild (c : City.t) : City.t :=
  City.mk (City.id c) (City.x c) true 3.

Definition reactivate (c : City.t) : City.t :=
  City.mk (City.id c) (City.x c) true (City.shields c).

Definition resetGame (g : Game) : Game :=
  mkGame PLAYING 0 1 1 [] []
         (map rebuild (cities g)) (map refill (batteries g)).

Definition nextRound (g : Game) : Game :=
  mkGame PLAYING (score g) (level g) (round g + 1) [] []
         (cities g) (map refill (batteries g)).

Definition nextLevel (g : Game) : Game :=
  if MAX_LEVELS <=? level g then
    mkGame WON (score g) (level g) (round g)
           (rockets g) (interceptors g) (cities g) (batteries g)
  else
    mkGame PLAYING (score g) (level g + 1) 1 [] []
           (cities g) (map refill (batteries g)).

Definition replayPreviousLevel (g : Game) : Game :=
  let prevLevel := Z.max 1 (level g - 1) in
  mkGame PLAYING ((prevLevel - 1) * WIN_SCORE_PER_LEVEL) prevLevel 1 [] []
         (map reactivate (cities g)) (map refill (batteries g)).

Definition togglePause (g : Game) : Game :=
  match gameState g with
  | PLAYING =>
      mkGame PAUSED (score g) (level g) (round g)
             (rockets g) (interceptors g) (cities g) (batteries g)
  | PAUSED =>
      mkGame PLAYING (score g) (level g) (round g)
             (rockets g) (interceptors g) (cities g) (batteries g)
  | _ => g
  end.

Definition exitToMenu (g : Game) : Game :=
  mkGame START 0 (level g) 1 [] []
         (map reactivate (cities g)) (map refill (batteries g)).

(** ** Game logic: spawning (lines 213-237) *)

Definition groundY : float := (WORLD_HEIGHT - 20)%float.

Definition spawnTargets (g : Game) : list Point.t :=
  map (fun c => Point.mk (City.x c) groundY)
      (filter City.active (cities g))
  ++ map (fun b => Point.mk (Battery.x b) groundY)
         (filter Battery.active (batteries g)).

Definition rocketSpeed (lvl rnd : Z) : float :=
  (ROCKET_BASE_SPEED + Z2float lvl * 0.3 + Z2float rnd * 0.1)%float.

Definition newRocket (env : Env) (g : Game) (target : Point.t) : Rocket.t :=
  let startX := (randomUnit env * WORLD_WIDTH)%float in
  Rocket.mk (freshId env (length (rockets g)))
            (Point.mk startX 0%float) (Point.mk startX 0%float)
            target (rocketSpeed (level g) (round g)) false.

Definition pushRocket (r : Rocket.t) (g : Game) : Game :=
  mkGame (gameState g) (score g) (level g) (round g)
         (rockets g ++ [r]) (interceptors g) (cities g) (batteries g).

(** [targets.length === 0] returns at once.  Otherwise the index drawn is
    below the length, so the lookup succeeds; the model leaves the pool alone
    on an index no [Math.floor(Math.random() * n)] produces. *)
Definition spawnRocket (env : Env) (g : Game) : Game :=
  let targets := spawnTargets g in
  if Nat.eqb (length targets) 0 then g
  else match nth_error targets (pickTarget env) with
       | Some target => pushRocket (newRocket env g target) g
       | None => g
       end.

(** ** Game logic: firing (lines 239-280) *)

Definition hasAmmo (b : Battery.t) : bool :=
  Battery.active b && (0 <? Battery.missiles b).

(** The [forEach] of lines 246-254, from position [n] on: [minDist] and
    [bestBattery] are the two variables it assigns, returned in that order. *)
Fixpoint closestFrom (targetX : float) (bs : list Battery.t) (n : nat)
    (minDist : float) (bestBattery : option (nat * Battery.t))
    : float * option (nat * Battery.t) :=
  match bs with
  | [] => (minDist, bestBattery)
  | b :: bs' =>
      if hasAmmo b then
        let dist := abs (Battery.x b - targetX)%float in
        if (dist <? minDist)%float
        then closestFrom targetX bs' (S n) dist (Some (n, b))
        else closestFrom targetX bs' (S n) minDist bestBattery
      else closestFrom targetX bs' (S n) minDist bestBattery
  end.

Definition closestBattery (targetX : float) (bs : list Battery.t)
    : option (nat * Battery.t) :=
  snd (closestFrom targetX bs 0 infinity None).

Definition spend (b : Battery.t) : Battery.t :=
  Battery.mk (Battery.id b) (Battery.x b) (Battery.missiles b - 1)
             (Battery.maxMissiles b) (Battery.active b).

Definition launchY : float := (WORLD_HEIGHT - 40)%float.

Definition createInterceptor (ident : float) (battery : Battery.t)
    (targetX targetY offsetX : float) : Interceptor.t :=
  Interceptor.mk ident
    (Point.mk (Battery.x battery + offsetX)%float launchY)
    (Point.mk (Battery.x battery + offsetX)%float launchY)
    (Point.mk (targetX + offsetX)%float targetY)
    INTERCEPTOR_SPEED FLYING 0%float 60%float 0.

(** The interceptors one fire request pushes, in order, on a pool of
    [n] elements. *)
Definition salvo (fresh : nat -> float) (n : nat) (battery : Battery.t)
    (targetX targetY : float) : list Interceptor.t :=
  if Battery.id battery =? 1 then
    [ createInterceptor (fresh n) battery targetX targetY (-30)%float;
      createInterceptor (fresh (S n)) battery targetX targetY 0%float;
      createInterceptor (fresh (S (S n))) battery targetX targetY 30%float ]
  else
    [ createInterceptor (fresh n) battery targetX targetY 0%float ].

Definition fireInterceptor (fresh : nat -> float) (targetX targetY : float)
    (g : Game) : Game :=
  match gameState g with
  | PLAYING =>
      match closestBattery targetX (batteries g) with
      | Some (n, battery) =>
          mkGame (gameState g) (score g) (level g) (round g) (rockets g)
                 (interceptors g
                  ++ salvo fresh (length (interceptors g)) (spend battery)
                           targetX targetY)
                 (cities g) (mutateAt n spend (batteries g))
      | None => g
      end
  | _ => g
  end.

(** ** The main loop (lines 299-408) *)

(** Line 305; computed from the [level] and [round] the loop closed over. *)
Definition spawnInterval (lvl rnd : Z) : Z :=
  Z.max 300 (2000 - lvl * 150 - rnd * 100).

(** Lines 309-312.  The loop variable [lastSpawnTime] is returned with the
    component. *)
Definition spawnPhase (time lastSpawnTime : float) (env : Env) (g : Game)
    : float * Game :=
  if (Z2float (spawnInterval (level g) (round g)) <? time - lastSpawnTime)%float
  then (time, spawnRocket env g)
  else (lastSpawnTime, g).

(** The per-frame displacement of a body flying from [start] to [target]
    (lines 316-320 and 342-346). *)
Definition velocity (start target : Point.t) (speed : float) : Point.t :=
  let dx := (Point.x target - Point.x start)%float in
  let dy := (Point.y target - Point.y start)%float in
  let dist := sqrt (dx * dx + dy * dy)%float in
  Point.mk (dx / dist * speed)%float (dy / dist * speed)%float.

Definition advance (pos v : Point.t) : Point.t :=
  Point.mk (Point.x pos + Point.x v)%float (Point.y pos + Point.y v)%float.

Definition moveRocket (r : Rocket.t) : Rocket.t :=
  Rocket.set_pos
    (advance (Rocket.pos r)
             (velocity (Rocket.start r) (Rocket.target r) (Rocket.speed r)))
    r.

(** Lines 329-333: the first city at abscissa [tx], if it is active. *)
Definition hitCity (c : City.t) : City.t :=
  if City.active c then
    let s := City.shields c - 1 in
    City.mk (City.id c) (City.x c)
            (if s <=? 0 then false else City.active c) s
  else c.

Definition damageCity (tx : float) (cs : list City.t) : list City.t :=
  match findIndex (fun c => (City.x c =? tx)%float) cs with
  | Some n => mutateAt n hitCity cs
  | None => cs
  end.

(** Lines 334-335: the first battery at abscissa [tx]. *)
Definition knockOut (b : Battery.t) : Battery.t :=
  Battery.mk (Battery.id b) (Battery.x b) (Battery.missiles b)
             (Battery.maxMissiles b) false.

Definition damageBattery (tx : float) (bs : list Battery.t) : list Battery.t :=
  match findIndex (fun b => (Battery.x b =? tx)%float) bs with
  | Some n => mutateAt n knockOut bs
  | None => bs
  end.

Definition Ground : Set := (list City.t * list Battery.t)%type.

(** The test of line 326, [rocket.pos.y >= rocket.target.y]. *)
Definition landed (r : Rocket.t) : bool :=
  (Point.y (Rocket.target r) <=? Point.y (Rocket.pos r))%float.

(** The body of the [forEach] of lines 315-337, for one rocket. *)
Definition stepRocket (w : Ground) (r : Rocket.t) : Rocket.t * Ground :=
  let r1 := moveRocket r in
  if landed r1 then
    (Rocket.set_destroyed true r1,
     (damageCity (Point.x (Rocket.target r1)) (fst w),
      damageBattery (Point.x (Rocket.target r1)) (snd w)))
  else (r1, w).

Fixpoint updateRockets (rs : list Rocket.t) (w : Ground)
    : list Rocket.t * Ground :=
  match rs with
  | [] => ([], w)
  | r :: rs' =>
      let (r', w') := stepRocket w r in
      let (rs'', w'') := updateRockets rs' w' in
      (r' :: rs'', w'')
  end.

(** [Math.sqrt(Math.pow(a.x - b.x, 2) + Math.pow(a.y - b.y, 2))]; the square
    is taken as the product. *)
Definition distance (a b : Point.t) : float :=
  let ex := (Point.x a - Point.x b)%float in
  let ey := (Point.y a - Point.y b)%float in
  sqrt (ex * ex + ey * ey)%float.

(** Lines 342-359: a FLYING interceptor. *)
Definition fly (i : Interceptor.t) : Interceptor.t :=
  let i1 :=
    Interceptor.set_pos
      (advance (Interceptor.pos i)
               (velocity (Interceptor.start i) (Interceptor.target i)
                         (Interceptor.speed i)))
      i in
  if (distance (Interceptor.pos i1) (Interceptor.target i1)
      <? Interceptor.speed i1)%float
  then Interceptor.set_state EXPLODING i1
  else i1.

(** Lines 362-367: growth for the first 30 ticks, then decay. *)
Definition explode (i : Interceptor.t) : Interceptor.t :=
  Interceptor.set_explosion
    (if Interceptor.explosionTimer i <? 30
     then (Interceptor.explosionRadius i + EXPLOSION_SPEED)%float
     else (Interceptor.explosionRadius i - EXPLOSION_SPEED)%float)
    (Interceptor.explosionTimer i + 1)
    i.

(** Lines 371-380, for one rocket. *)
Definition caught (i : Interceptor.t) (r : Rocket.t) : bool :=
  negb (Rocket.destroyed r)
  && (distance (Rocket.pos r) (Interceptor.pos i)
      <? Interceptor.explosionRadius i)%float.

(** Lines 370-381: the blast of [i] over the rocket pool; the second
    component is the score. *)
Fixpoint blast (i : Interceptor.t) (rs : list Rocket.t) (sc : Z)
    : list Rocket.t * Z :=
  match rs with
  | [] => ([], sc)
  | r :: rs' =>
      if caught i r then
        let (rs'', sc') := blast i rs' (sc + 20) in
        (Rocket.set_destroyed true r :: rs'', sc')
      else
        let (rs'', sc') := blast i rs' sc in
        (r :: rs'', sc')
  end.

(** The body of the [forEach] of lines 340-383, for one interceptor. *)
Definition stepInterceptor (st : list Rocket.t * Z) (i : Interceptor.t)
    : Interceptor.t * (list Rocket.t * Z) :=
  match Interceptor.state i with
  | FLYING => (fly i, st)
  | EXPLODING => let i1 := explode i in (i1, blast i1 (fst st) (snd st))
  end.

Fixpoint updateInterceptors (ics : list Interceptor.t)
    (st : list Rocket.t * Z) : list Interceptor.t * (list Rocket.t * Z) :=
  match ics with
  | [] => ([], st)
  | i :: ics' =>
      let (i', st') := stepInterceptor st i in
      let (ics'', st'') := updateInterceptors ics' st' in
      (i' :: ics'', st'')
  end.

(** Lines 386-387. *)
Definition keepRocket (r : Rocket.t) : bool := negb (Rocket.destroyed r).

Definition keepInterceptor (i : Interceptor.t) : bool :=
  (0 <? Interceptor.explosionRadius i)%float
  || match Interceptor.state i with FLYING => true | EXPLODING => false end.

(** Lines 315-387: kinematics of both pools, then the cleanup. *)
Definition simulate (g : Game) : Game :=
  let '(rs1, (cs, bs)) := updateRockets (rockets g) (cities g, batteries g) in
  let '(ics1, (rs2, sc)) :=
    updateInterceptors (interceptors g) (rs1, score g) in
  mkGame (gameState g) sc (level g) (round g)
         (filter keepRocket rs2) (filter keepInterceptor ics1) cs bs.

(** Lines 390-404.  [closedScore] is the [score] the loop closed over. *)
Definition allDown (bs : list Battery.t) : bool :=
  forallb (fun b => negb (Battery.active b)) bs.

Definition totalMissiles (bs : list Battery.t) : Z :=
  fold_left (fun acc b => acc + Battery.missiles b) bs 0.

Definition fieldSpent (g : Game) : bool :=
  (totalMissiles (batteries g) =? 0)
  && Nat.eqb (length (rockets g)) 0
  && Nat.eqb (length (interceptors g)) 0.

Definition bonus (cs : list City.t) : Z :=
  let activeCities := filter City.active cs in
  Z.of_nat (length activeCities) * 50
  + fold_left (fun acc c => acc + City.shields c * 20) activeCities 0.

Definition setGameState (s : GameState) (g : Game) : Game :=
  mkGame s (score g) (level g) (round g)
         (rockets g) (interceptors g) (cities g) (batteries g).

Definition addScore (k : Z) (g : Game) : Game :=
  mkGame (gameState g) (score g + k) (level g) (round g)
         (rockets g) (interceptors g) (cities g) (batteries g).

Definition checkGameOver (closedScore : Z) (g : Game) : Game :=
  if allDown (batteries g) then setGameState LOST g
  else if level g * WIN_SCORE_PER_LEVEL <=? closedScore
       then setGameState ROUND_END g
       else g.

Definition checkRoundEnd (g : Game) : Game :=
  if fieldSpent g
  then setGameState ROUND_END (addScore (bonus (cities g)) g)
  else g.

Definition terminate (closedScore : Z) (g : Game) : Game :=
  checkRoundEnd (checkGameOver closedScore g).

(** One call of [update]: the component after the frame, with the loop's
    [lastSpawnTime].  The effect of line 299 starts the loop only while the
    session is PLAYING and cancels it on any change of session state, score
    or round; [update] itself tests no session state. *)
Definition update (time lastSpawnTime : float) (env : Env) (g : Game)
    : float * Game :=
  let (last, g1) := spawnPhase time lastSpawnTime env g in
  (last, terminate (score g) (simulate g1)).

(** ** Input (lines 589-637), from the tap already mapped to world space *)

Definition tapped (x y : float) (r : Rocket.t) : bool :=
  (distance (Rocket.pos r) (Point.mk x y) <? 30)%float.

Definition burst (ident : float) (r : Rocket.t) : Interceptor.t :=
  Interceptor.mk ident (Rocket.pos r) (Rocket.pos r) (Rocket.pos r)
                 INTERCEPTOR_SPEED EXPLODING 10%float 60%float 0.

(** What the [forEach] of lines 611-632 assigns: [directHit], the score and
    the interceptor pool. *)
Record Tap : Set := mkTap {
  directHit : bool;
  tapScore : Z;
  tapPool : list Interceptor.t
}.

Fixpoint directHits (fresh : nat -> float) (x y : float)
    (rs : list Rocket.t) (t : Tap) : list Rocket.t * Tap :=
  match rs with
  | [] => ([], t)
  | r :: rs' =>
      if tapped x y r then
        let (rs'', t') :=
          directHits fresh x y rs'
            (mkTap true (tapScore t + 20)
                   (tapPool t ++ [burst (fresh (length (tapPool t))) r])) in
        (Rocket.set_destroyed true r :: rs'', t')
      else
        let (rs'', t') := directHits fresh x y rs' t in
        (r :: rs'', t')
  end.

Definition handleCanvasClick (fresh : nat -> float) (x y : float) (g : Game)
    : Game :=
  match gameState g with
  | PLAYING =>
      let (rs, t) :=
        directHits fresh x y (rockets g)
                   (mkTap false (score g) (interceptors g)) in
      let g1 := mkGame (gameState g) (tapScore t) (level g) (round g)
                       rs (tapPool t) (cities g) (batteries g) in
      if directHit t then g1 else fireInterceptor fresh x y g1
  | _ => g
  end.


(** * Vocabulary of the properties *)

(** A battery as a refill leaves it: full, active, otherwise the same. *)
Definition Refilled (b b' : Battery.t) : Prop :=
  Battery.missiles b' = Battery.maxMissiles b
  /\ Battery.active b' = true
  /\ Battery.id b' = Battery.id b
  /\ Battery.x b' = Battery.x b
  /\ Battery.maxMissiles b' = Battery.maxMissiles b.

(** The absolute difference line 248 computes. *)
Definition gap (targetX : float) (b : Battery.t) : float :=
  abs (Battery.x b - targetX)%float.

(** No two structures stand at the same abscissa, no two batteries do, and no
    structure shares its abscissa with a battery ([===] on numbers). *)
Definition DisjointLayout (cs : list City.t) (bs : list Battery.t) : Prop :=
  (forall i j c c', nth_error cs i = Some c -> nth_error cs j = Some c' ->
     (City.x c =? City.x c')%float = true -> i = j)
  /\ (forall i j b b', nth_error bs i = Some b -> nth_error bs j = Some b' ->
        (Battery.x b =? Battery.x b')%float = true -> i = j)
  /\ (forall c b, In c cs -> In b bs ->
        (City.x c =? Battery.x b)%float = false).

(** The explosions a tap pushes for the rockets [rs] it hit, on a pool of
    [n] interceptors. *)
Fixpoint bursts (fresh : nat -> float) (n : nat) (rs : list Rocket.t)
    : list Interceptor.t :=
  match rs with
  | [] => []
  | r :: rs' => burst (fresh n) r :: bursts fresh (S n) rs'
  end.

(** Sum of the shields of a row of structures. *)
Definition shieldSum (cs : list City.t) : Z :=
  fold_right Z.add 0 (map City.shields cs).

(** Both coordinates are NaN. *)
Definition lostPosition (p : Point.t) : bool :=
  is_nan (Point.x p) && is_nan (Point.y p).

(** Origin and target coincide as numbers, at finite coordinates. *)
Definition degenerate (start target : Point.t) : Prop :=
  (Point.x target =? Point.x start)%float = true
  /\ (Point.y target =? Point.y start)%float = true
  /\ is_finite (Point.x start) = true
  /\ is_finite (Point.y start) = true.

(** Total ammunition left in a battery row. *)
Definition ammoLeft (bs : list Battery.t) : Z :=
  fold_right Z.add 0 (map Battery.missiles bs).

(** The three conditions the termination checks test, on the component as
    the cleanup leaves it. *)
Definition AllDown (g : Game) : Prop :=
  Forall (fun b => Battery.active b = false) (batteries g).

Definition GoalReached (closedScore : Z) (g : Game) : Prop :=
  level g * WIN_SCORE_PER_LEVEL <= closedScore.

Definition Spent (g : Game) : Prop :=
  ammoLeft (batteries g) = 0 /\ rockets g = [] /\ interceptors g = [].

(** The completion bonus as the specification words it. *)
Definition completionBonus (g : Game) : Z :=
  50 * Z.of_nat (length (filter City.active (cities g)))
  + 20 * shieldSum (filter City.active (cities g)).

(** The component between the cleanup and the termination checks. *)
Definition afterCleanup (time lastSpawnTime : float) (env : Env) (g : Game)
    : Game :=
  simulate (snd (spawnPhase time lastSpawnTime env g)).

(** ** Scenarios *)

(** An environment for the scenarios: first target, mid-screen abscissa,
    identifiers counting up. *)
Definition quietEnv : Env :=
  mkEnv 0 0.5%float (fun n => Z2float (Z.of_nat n)).

(** Level 1 with the goal of 200 points reached, every battery standing but
    out of ammunition, and an empty field. *)
Definition gGoalSpent : Game :=
  mkGame PLAYING 200 1 1 [] [] initialCities
         [ Battery.mk 0 100%float 0 20 true;
           Battery.mk 1 500%float 0 40 true;
           Battery.mk 2 900%float 0 20 true ].

(** Every battery knocked out with ammunition left. *)
Definition gAllDown : Game :=
  mkGame PLAYING 0 1 1 [] [] initialCities
         [ Battery.mk 0 100%float 20 20 false;
           Battery.mk 1 500%float 40 40 false;
           Battery.mk 2 900%float 20 20 false ].

(** Every battery knocked out, out of ammunition, and an empty field. *)
Definition gAllDownSpent : Game :=
  mkGame PLAYING 0 1 1 [] [] initialCities
         [ Battery.mk 0 100%float 0 20 false;
           Battery.mk 1 500%float 0 40 false;
           Battery.mk 2 900%float 0 20 false ].

(** Nothing left standing: every structure and every battery inactive. *)
Definition gNoTargets : Game :=
  mkGame PLAYING 0 1 1 [] []
         [ City.mk 1 200%float false 0; City.mk 2 300%float false 0;
           City.mk 3 400%float false 0; City.mk 4 600%float false 0;
           City.mk 5 700%float false 0; City.mk 6 800%float false 0 ]
         [ Battery.mk 0 100%float 20 20 false;
           Battery.mk 1 500%float 40 40 false;
           Battery.mk 2 900%float 20 20 false ].



(** A rocket half a unit above the first structure, at level 1, round 1. *)
Definition rocketAboveCity : Rocket.t :=
  Rocket.mk 7 (Point.mk 200 0) (Point.mk 200 779.5) (Point.mk 200 780)
            (rocketSpeed 1 1) false.

(** A rocket half a unit above the middle battery. *)
Definition rocketAboveBattery : Rocket.t :=
  Rocket.mk 8 (Point.mk 500 0) (Point.mk 500 779.5) (Point.mk 500 780)
            (rocketSpeed 1 1) false.

(** A rocket aimed at an abscissa where nothing stands. *)
Definition rocketAstray : Rocket.t :=
  Rocket.mk 9 (Point.mk 250 0) (Point.mk 250 779.5) (Point.mk 250 780)
            (rocketSpeed 1 1) false.

(** A battery after one fire request: one missile less, otherwise the
    same. *)
Definition FiredOnce (b b' : Battery.t) : Prop :=
  Battery.missiles b' = Battery.missiles b - 1
  /\ Battery.id b' = Battery.id b
  /\ Battery.x b' = Battery.x b
  /\ Battery.maxMissiles b' = Battery.maxMissiles b
  /\ Battery.active b' = Battery.active b.

(** An interceptor as battery [b] launches it at the aim point [(ax, ay)]
    with lateral offset [off]: on the launch line above the battery, flying,
    no explosion yet. *)
Definition Launched (b : Battery.t) (ax ay off : float) (i : Interceptor.t)
    : Prop :=
  Interceptor.start i
  = Point.mk (Battery.x b + off)%float (WORLD_HEIGHT - 40)%float
  /\ Interceptor.pos i = Interceptor.start i
  /\ Interceptor.target i = Point.mk (ax + off)%float ay
  /\ Interceptor.speed i = INTERCEPTOR_SPEED
  /\ Interceptor.state i = FLYING
  /\ Interceptor.explosionRadius i = 0%float
  /\ Interceptor.maxExplosionRadius i = 60%float
  /\ Interceptor.explosionTimer i = 0.

(** No battery of the row that is active with ammunition is strictly nearer
    to the abscissa [ax] than [b]. *)
Definition Nearest (ax : float) (bs : list Battery.t) (b : Battery.t) : Prop :=
  forall b', In b' bs -> hasAmmo b' = true ->
    (gap ax b' <? gap ax b)%float = false.

(** What the two loop variables of lines 243-254 satisfy once the batteries
    [seen] of the row [row] have been visited. *)
Definition closest_inv (ax : float) (row seen : list Battery.t)
    (minDist : float) (best : option (nat * Battery.t)) : Prop :=
  (forall b, In b seen -> hasAmmo b = true ->
     (gap ax b <? minDist)%float = false)
  /\ match best with
     | Some (k, b) =>
         nth_error row k = Some b /\ hasAmmo b = true /\ minDist = gap ax b
     | None => minDist = infinity
     end.

(** The explosion a tap leaves on a rocket it hit: at the rocket's position,
    already EXPLODING, radius 10 of a nominal maximum of 60, timer 0. *)
Definition Burst (r : Rocket.t) (i : Interceptor.t) : Prop :=
  Interceptor.state i = EXPLODING
  /\ Interceptor.pos i = Rocket.pos r
  /\ Interceptor.start i = Rocket.pos r
  /\ Interceptor.target i = Rocket.pos r
  /\ Interceptor.explosionRadius i = 10%float
  /\ Interceptor.maxExplosionRadius i = 60%float
  /\ Interceptor.explosionTimer i = 0
  /\ Interceptor.speed i = INTERCEPTOR_SPEED.

(** The pool holds no rocket already marked destroyed, as the cleanup of
    every frame leaves it. *)
Definition LivePool (g : Game) : Prop :=
  Forall (fun r => Rocket.destroyed r = false) (rockets g).

(** A non-destroyed rocket within 30 units of the tap point. *)
Definition liveHit (x y : float) (r : Rocket.t) : bool :=
  negb (Rocket.destroyed r) && tapped x y r.

(** What a tap does to one rocket. *)
Definition strike (x y : float) (r : Rocket.t) : Rocket.t :=
  if tapped x y r then Rocket.set_destroyed true r else r.

(** A fresh game with one rocket in mid-air at (300, 400). *)
Definition gOneRocket : Game :=
  mkGame PLAYING 0 1 1
         [ Rocket.mk 7 (Point.mk 300 0) (Point.mk 300 400) (Point.mk 300 780)
                     (rocketSpeed 1 1) false ]
         [] initialCities initialBatteries.

(** The fresh game after a tap exactly on the launch point of the center
    battery, (500, 760): three interceptors whose origin is their target. *)
Definition gTapOnLaunchPoint : Game :=
  handleCanvasClick (freshId quietEnv) 500 760 (resetGame mounted).

(** A fresh game with one live rocket half a unit above the first
    structure. *)
Definition gRocketAboveCity : Game :=
  mkGame PLAYING 0 1 1 [rocketAboveCity] [] initialCities initialBatteries.

(** The same game after the player tapped that rocket, before the next
    frame. *)
Definition gRocketTapped : Game :=
  handleCanvasClick (freshId quietEnv) 200 779.5 gRocketAboveCity.

(** The fresh game after a fire request at (100, 750), ten units above the
    launch point of the left battery: one interceptor, one step from its
    target. *)
Definition gShortShot : Game :=
  fireInterceptor (freshId quietEnv) 100 750 (resetGame mounted).

(** [n] ticks of the explosion logic. *)
Fixpoint ticks (n : nat) (i : Interceptor.t) : Interceptor.t :=
  match n with
  | O => i
  | S n' => explode (ticks n' i)
  end.

(** The explosion a tap leaves at (300, 400). *)
Definition tapBurst : Interceptor.t :=
  burst 0 (Rocket.mk 7 (Point.mk 300 0) (Point.mk 300 400) (Point.mk 300 780)
                     (rocketSpeed 1 1) false).

(** [n] frames at a constant time stamp, so that nothing is spawned. *)
Fixpoint frames (n : nat) (g : Game) : Game :=
  match n with
  | O => g
  | S n' => snd (update 0 0 quietEnv (frames n' g))
  end.

(** Level 1, round 5 (rocket speed 1.3), one rocket straight above the first
    structure, 780 units away. *)
Definition rocketFromTop : Rocket.t :=
  Rocket.mk 7 (Point.mk 200 0) (Point.mk 200 0) (Point.mk 200 780)
            (rocketSpeed 1 5) false.

Definition gLateLanding : Game :=
  mkGame PLAYING 0 1 5 [rocketFromTop] [] initialCities initialBatteries.

(** The exact value of a finite binary64 number counted in units of [2^e0]
    (an integer when [e0] is not above the number's exponent). *)
Definition exactAt (e0 : Z) (f : float) : Z :=
  match Prim2SF f with
  | S754_finite s m e => cond_Zopp s (Z.pos m) * 2 ^ (e - e0)
  | _ => 0
  end.

(** The flag of [r'] is set if the flag of [r] is. *)
Definition flagKept (r r' : Rocket.t) : Prop :=
  Rocket.destroyed r = true -> Rocket.destroyed r' = true.

(** The components the program can be in: the mounted one and whatever the
    buttons, the taps and the frames make of it. *)
Inductive Reachable : Game -> Prop :=
  | reach_mounted : Reachable mounted
  | reach_reset g : Reachable g -> Reachable (resetGame g)
  | reach_round g : Reachable g -> Reachable (nextRound g)
  | reach_level g : Reachable g -> Reachable (nextLevel g)
  | reach_replay g : Reachable g -> Reachable (replayPreviousLevel g)
  | reach_exit g : Reachable g -> Reachable (exitToMenu g)
  | reach_pause g : Reachable g -> Reachable (togglePause g)
  | reach_tap fresh x y g :
      Reachable g -> Reachable (handleCanvasClick fresh x y g)
  | reach_frame time last env g :
      Reachable g -> Reachable (snd (update time last env g)).

(** The abscissas of the structures and of the batteries, in row order. *)
Definition abscissas (g : Game) : list float * list float :=
  (map City.x (cities g), map Battery.x (batteries g)).

(** ** Vocabulary of the properties of the whole component *)

(** What never changes in a structure and in a battery. *)
Definition cityIdentity (c : City.t) : Z * float := (City.id c, City.x c).

Definition batteryIdentity (b : Battery.t) : Z * float * Z :=
  (Battery.id b, Battery.x b, Battery.maxMissiles b).

Definition identity (g : Game) : list (Z * float) * list (Z * float * Z) :=
  (map cityIdentity (cities g), map batteryIdentity (batteries g)).

(** The game every "Start Game" or "Play Again" begins with. *)
Definition opening : Game :=
  mkGame PLAYING 0 1 1 [] [] initialCities initialBatteries.

(** Counters and ammunition within their bounds. *)
Definition InBounds (g : Game) : Prop :=
  1 <= level g <= MAX_LEVELS
  /\ 1 <= round g
  /\ Forall (fun b => 0 <= Battery.missiles b <= Battery.maxMissiles b)
            (batteries g).

(** A structure before and after a frame: never repaired, never revived. *)
Definition Worn (c c' : City.t) : Prop :=
  City.id c' = City.id c
  /\ City.x c' = City.x c
  /\ City.shields c' <= City.shields c
  /\ (City.active c' = true -> City.active c = true)
  /\ (City.active c = false -> c' = c).

(** A battery before and after a frame: never revived, ammunition as it
    was. *)
Definition Exposed (b b' : Battery.t) : Prop :=
  Battery.id b' = Battery.id b
  /\ Battery.x b' = Battery.x b
  /\ Battery.missiles b' = Battery.missiles b
  /\ Battery.maxMissiles b' = Battery.maxMissiles b
  /\ (Battery.active b' = true -> Battery.active b = true).

(** Number of rockets of a pool marked destroyed. *)
Definition destroyedCount (rs : list Rocket.t) : Z :=
  Z.of_nat (length (filter Rocket.destroyed rs)).

(** Two rockets that differ at most in the destroyed flag. *)
Definition sameFlight (r r' : Rocket.t) : Prop :=
  Rocket.id r' = Rocket.id r
  /\ Rocket.start r' = Rocket.start r
  /\ Rocket.pos r' = Rocket.pos r
  /\ Rocket.target r' = Rocket.target r
  /\ Rocket.speed r' = Rocket.speed r.

(** Every active structure has at least -2 shields, so that it adds at least
    10 to the completion bonus. *)
Definition BonusSafe (cs : list City.t) : Prop :=
  Forall (fun c => City.active c = true -> -2 <= City.shields c) cs.

(** [k] impacts on one structure. *)
Fixpoint impacts (k : nat) (c : City.t) : City.t :=
  match k with
  | O => c
  | S k' => hitCity (impacts k' c)
  end.

(** After two replays of a lost structure row: every structure active again
    with -3 shields; no ammunition, empty field. *)
Definition gOverdrawn : Game :=
  mkGame PLAYING 1000 2 1 [] []
         [ City.mk 1 200%float true (-3); City.mk 2 300%float true (-3);
           City.mk 3 400%float true (-3); City.mk 4 600%float true (-3);
           City.mk 5 700%float true (-3); City.mk 6 800%float true (-3) ]
         [ Battery.mk 0 100%float 0 20 true;
           Battery.mk 1 500%float 0 40 true;
           Battery.mk 2 900%float 0 20 true ].

(** Every battery with ammunition that stands before position [k] of the row
    is strictly farther from [ax] than [b] (or at no comparable distance). *)
Definition Leftmost (ax : float) (row : list Battery.t) (k : nat)
    (b : Battery.t) : Prop :=
  forall j b', (j < k)%nat -> nth_error row j = Some b' ->
    hasAmmo b' = true -> (gap ax b' <=? gap ax b)%float = false.

(** An interceptor the cleanup lets through. *)
Definition Alive (i : Interceptor.t) : Prop :=
  Interceptor.state i = FLYING
  \/ (0 <? Interceptor.explosionRadius i)%float = true.

(** An interceptor before and after a frame's interceptor loop: its launch
    data never change; a FLYING one keeps radius and timer; an EXPLODING one
    stays EXPLODING where it is, one tick older, its radius two units larger
    during the first 30 ticks and two units smaller afterwards. *)
Definition Aged (i i' : Interceptor.t) : Prop :=
  Interceptor.id i' = Interceptor.id i
  /\ Interceptor.start i' = Interceptor.start i
  /\ Interceptor.target i' = Interceptor.target i
  /\ Interceptor.speed i' = Interceptor.speed i
  /\ Interceptor.maxExplosionRadius i' = Interceptor.maxExplosionRadius i
  /\ (Interceptor.state i = FLYING ->
        Interceptor.explosionRadius i' = Interceptor.explosionRadius i
        /\ Interceptor.explosionTimer i' = Interceptor.explosionTimer i)
  /\ (Interceptor.state i = EXPLODING ->
        Interceptor.state i' = EXPLODING
        /\ Interceptor.pos i' = Interceptor.pos i
        /\ Interceptor.explosionTimer i' = Interceptor.explosionTimer i + 1
        /\ (Interceptor.explosionTimer i < 30 ->
              Interceptor.explosionRadius i'
              = (Interceptor.explosionRadius i + 2)%float)
        /\ (30 <= Interceptor.explosionTimer i ->
              Interceptor.explosionRadius i'
              = (Interceptor.explosionRadius i - 2)%float)).

(** ** Exact values of binary64 numbers, and the flight of a rocket *)

(** The exact value of a finite binary64 number counted in units of
    [2^-1074], the smallest positive binary64 number: always an integer.
    In these units 1024 is [2^1084] and [2^-41] is [2^1033]. *)
Definition SFexact (x : spec_float) : Z :=
  match x with
  | S754_finite s m e => cond_Zopp s (Z.pos m) * 2 ^ (e + 1074)
  | _ => 0
  end.

Definition exact (f : float) : Z := SFexact (Prim2SF f).

(** Finite and not negative. *)
Definition SFnonneg (x : spec_float) : bool :=
  match x with
  | S754_zero _ => true
  | S754_finite false _ _ => true
  | _ => false
  end.

Definition nonneg (f : float) : bool := SFnonneg (Prim2SF f).

(** The rocket after [k] runs of lines 316-324. *)
Fixpoint flight (k : nat) (r : Rocket.t) : Rocket.t :=
  match k with
  | O => r
  | S k' => moveRocket (flight k' r)
  end.

(** The y-component of the displacement of lines 317-324, the same in every
    frame. *)
Definition descent (r : Rocket.t) : float :=
  Point.y (velocity (Rocket.start r) (Rocket.target r) (Rocket.speed r)).

(** * Facts on binary64 arithmetic *)

Section Binary64.

Local Open Scope float_scope.

Lemma SFltb_trans (a b c : spec_float) :
  SFltb a b = true -> SFltb b c = true -> SFltb a c = true.
Proof.
  unfold SFltb, SFcompare.
  destruct a as [sa|sa| |sa ma ea], b as [sb|sb| |sb mb eb],
           c as [sc|sc| |sc mc ec];
    try discriminate;
    try (destruct sa; discriminate);
    try (destruct sb; discriminate);
    try (destruct sc; discriminate);
    try (destruct sa, sb; discriminate);
    try (destruct sb, sc; discriminate);
    try (destruct sa, sb, sc; (discriminate || reflexivity)).
  all: change (Pos.compare_cont Eq) with Pos.compare.
  all: destruct sa, sb, sc; try discriminate; try reflexivity.
  all: destruct (Z.compare_spec ea eb), (Z.compare_spec eb ec),
         (Z.compare_spec ea ec);
       try discriminate; try reflexivity; try lia.
  all: subst.
  all: destruct (Pos.compare_spec ma mb), (Pos.compare_spec mb mc),
         (Pos.compare_spec ma mc);
       cbn; try discriminate; try reflexivity; try lia.
Qed.

Lemma ltb_trans (a b c : float) :
  (a <? b) = true -> (b <? c) = true -> (a <? c) = true.
Proof. rewrite !ltb_spec. apply SFltb_trans. Qed.





(** A finite number is a zero or has a mantissa and an exponent. *)
Lemma finite_cases (a : float) :
  is_finite a = true ->
  (exists s, Prim2SF a = S754_zero s)
  \/ (exists s m e, Prim2SF a = S754_finite s m e).
Proof.
  unfold is_finite, is_nan, is_infinity.
  rewrite !eqb_spec, abs_spec.
  change (Prim2SF infinity) with (S754_infinity false).
  destruct (Prim2SF a) as [s|s| |s m e]; cbn; intros H;
    try discriminate; eauto.
  destruct s; discriminate.
Qed.

(** Two equal finite numbers differ by a zero. *)
Lemma sub_eq_zero (a b : float) :
  (a =? b) = true -> is_finite b = true ->
  exists s, Prim2SF (a - b) = S754_zero s.
Proof.
  intros Heq Hfin. rewrite sub_spec. rewrite eqb_spec in Heq.
  destruct (finite_cases b Hfin) as [[s Hb]|(s & m & e & Hb)];
    rewrite Hb in *; clear Hb.
  - destruct (Prim2SF a) as [sa|sa| |sa ma ea]; cbn in Heq;
      try discriminate; try (destruct sa; discriminate).
    destruct sa, s; cbn; eauto.
  - destruct (Prim2SF a) as [sa|sa| |sa ma ea]; unfold SFeqb in Heq;
      cbn in Heq; try discriminate; try (destruct sa; discriminate);
      try (destruct s; discriminate).
    change (Pos.compare_cont Eq) with Pos.compare in Heq.
    assert (sa = s /\ ea = e /\ ma = m) as (-> & -> & ->).
    { destruct sa, s; try discriminate;
        destruct (Z.compare_spec ea e); try discriminate;
        destruct (Pos.compare_spec ma m); try discriminate; auto. }
    exists false. unfold SF64sub, SFsub.
    rewrite Z.sub_diag. reflexivity.
Qed.

Lemma Prim2SF_nan (a : float) : Prim2SF a = S754_nan -> a = nan.
Proof. intros H. apply Prim2SF_inj. rewrite H. reflexivity. Qed.

Lemma square_of_zero (a : float) (s : bool) :
  Prim2SF a = S754_zero s -> Prim2SF (a * a) = S754_zero false.
Proof.
  intros H. rewrite mul_spec, H. cbn. now rewrite xorb_nilpotent.
Qed.

Lemma add_plus_zeros (a b : float) :
  Prim2SF a = S754_zero false -> Prim2SF b = S754_zero false ->
  Prim2SF (a + b) = S754_zero false.
Proof. intros Ha Hb. rewrite add_spec, Ha, Hb. reflexivity. Qed.

Lemma sqrt_plus_zero (a : float) :
  Prim2SF a = S754_zero false -> Prim2SF (sqrt a) = S754_zero false.
Proof. intros H. rewrite sqrt_spec, H. reflexivity. Qed.

Lemma zero_div_zero (a b : float) (s s' : bool) :
  Prim2SF a = S754_zero s -> Prim2SF b = S754_zero s' -> a / b = nan.
Proof.
  intros Ha Hb. apply Prim2SF_nan. rewrite div_spec, Ha, Hb. reflexivity.
Qed.

Lemma nan_mul (a : float) : nan * a = nan.
Proof.
  apply Prim2SF_nan. rewrite mul_spec.
  change (Prim2SF nan) with S754_nan. reflexivity.
Qed.

Lemma add_nan (a : float) : a + nan = nan.
Proof.
  apply Prim2SF_nan. rewrite add_spec.
  change (Prim2SF nan) with S754_nan.
  destruct (Prim2SF a); reflexivity.
Qed.

Lemma nan_sub (a : float) : nan - a = nan.
Proof.
  apply Prim2SF_nan. rewrite sub_spec.
  change (Prim2SF nan) with S754_nan. reflexivity.
Qed.

Lemma nan_ltb (a : float) : (nan <? a) = false.
Proof.
  rewrite ltb_spec. change (Prim2SF nan) with S754_nan. reflexivity.
Qed.

Lemma leb_nan (a : float) : (a <=? nan) = false.
Proof.
  rewrite leb_spec. change (Prim2SF nan) with S754_nan.
  destruct (Prim2SF a); reflexivity.
Qed.

Lemma SFeqb_refl (a : spec_float) : a <> S754_nan -> SFeqb a a = true.
Proof.
  unfold SFeqb, SFcompare. destruct a as [s|s| |s m e]; intros H;
    try (destruct s; reflexivity); [congruence|].
  change (Pos.compare_cont Eq m m) with (Pos.compare m m).
  rewrite Z.compare_refl, Pos.compare_refl. destruct s; reflexivity.
Qed.

Lemma ltb_irrefl (a : float) : (a <? a) = false.
Proof.
  rewrite ltb_spec. unfold SFltb, SFcompare.
  destruct (Prim2SF a) as [s|s| |s m e];
    try reflexivity; try (destruct s; reflexivity).
  change (Pos.compare_cont Eq m m) with (Pos.compare m m).
  rewrite Z.compare_refl, Pos.compare_refl. destruct s; reflexivity.
Qed.

(** Adding the offset 0 gives a number equal to the original ([-0] becomes
    [+0], which [===] does not tell apart). *)
Lemma add_zero_same (a : float) : is_nan a = false -> (a + 0 =? a) = true.
Proof.
  unfold is_nan. rewrite !eqb_spec, add_spec.
  change (Prim2SF 0) with (S754_zero false).
  destruct (Prim2SF a) as [s|s| |s m e] eqn:Ha; intros H.
  - destruct s; reflexivity.
  - apply SFeqb_refl. discriminate.
  - discriminate H.
  - apply SFeqb_refl. discriminate.
Qed.

Lemma SFleb_ltb_trans (a b c : spec_float) :
  SFleb a b = true -> SFltb b c = true -> SFltb a c = true.
Proof.
  unfold SFleb, SFltb, SFcompare.
  destruct a as [sa|sa| |sa ma ea], b as [sb|sb| |sb mb eb],
           c as [sc|sc| |sc mc ec];
    try discriminate;
    try (destruct sa; discriminate);
    try (destruct sb; discriminate);
    try (destruct sc; discriminate);
    try (destruct sa, sb; discriminate);
    try (destruct sb, sc; discriminate);
    try (destruct sa, sb, sc; (discriminate || reflexivity)).
  all: change (Pos.compare_cont Eq) with Pos.compare.
  all: destruct sa, sb, sc; try discriminate; try reflexivity.
  all: destruct (Z.compare_spec ea eb), (Z.compare_spec eb ec),
         (Z.compare_spec ea ec);
       try discriminate; try reflexivity; try lia.
  all: subst.
  all: destruct (Pos.compare_spec ma mb), (Pos.compare_spec mb mc),
         (Pos.compare_spec ma mc);
       cbn; try discriminate; try reflexivity; try lia.
Qed.

Lemma leb_ltb_trans (a b c : float) :
  (a <=? b) = true -> (b <? c) = true -> (a <? c) = true.
Proof. rewrite leb_spec, !ltb_spec. apply SFleb_ltb_trans. Qed.

End Binary64.

(** * Rounding in binary64: what an addition can lose *)

Section Rounding.

Lemma digits2_bounds (m : positive) :
  2 ^ (Z.pos (digits2_pos m) - 1) <= Z.pos m < 2 ^ Z.pos (digits2_pos m).
Proof.
  induction m as [p IH|p IH|]; cbn [digits2_pos].
  - rewrite Pos2Z.inj_succ.
    replace (Z.succ (Z.pos (digits2_pos p)) - 1)
      with (Z.succ (Z.pos (digits2_pos p) - 1)) by lia.
    rewrite !Z.pow_succ_r by lia. lia.
  - rewrite Pos2Z.inj_succ.
    replace (Z.succ (Z.pos (digits2_pos p)) - 1)
      with (Z.succ (Z.pos (digits2_pos p) - 1)) by lia.
    rewrite !Z.pow_succ_r by lia. lia.
  - cbn. lia.
Qed.

Lemma digits2_le (m : positive) (k : Z) :
  Z.pos m < 2 ^ k -> Z.pos (digits2_pos m) <= k.
Proof.
  intros H. destruct (digits2_bounds m) as [Hlo _].
  destruct (Z.le_gt_cases (Z.pos (digits2_pos m)) k) as [|Hgt]; [assumption|].
  assert (2 ^ k <= 2 ^ (Z.pos (digits2_pos m) - 1)).
  { destruct (Z.le_gt_cases 0 k).
    - apply Z.pow_le_mono_r; lia.
    - rewrite (Z.pow_neg_r 2 k) by lia. apply Z.pow_nonneg. lia. }
  lia.
Qed.

Lemma Zdigits2_le (m k : Z) : 0 <= m -> 0 <= k -> m < 2 ^ k -> Zdigits2 m <= k.
Proof.
  intros Hm Hk H. destruct m as [|p|p]; cbn [Zdigits2]; [lia| |lia].
  now apply digits2_le.
Qed.

Lemma iter_xO (m d : positive) :
  Z.pos (Pos.iter xO m d) = Z.pos m * 2 ^ Z.pos d.
Proof.
  induction d as [|d IH] using Pos.peano_ind.
  - cbn. lia.
  - rewrite Pos.iter_succ, Pos2Z.inj_succ, Z.pow_succ_r by lia.
    rewrite Pos2Z.inj_xO, IH. lia.
Qed.

Lemma shl_align_spec (m : positive) (e e' : Z) :
  snd (shl_align m e e') = Z.min e e'
  /\ Z.pos (fst (shl_align m e e')) = Z.pos m * 2 ^ (e - Z.min e e').
Proof.
  unfold shl_align. destruct (e' - e) as [|d|d] eqn:Hd; cbn [fst snd].
  - replace (Z.min e e') with e by lia. rewrite Z.sub_diag. cbn. lia.
  - replace (Z.min e e') with e by lia. rewrite Z.sub_diag. cbn. lia.
  - replace (Z.min e e') with e' by lia.
    replace (e - e') with (Z.pos d) by lia. split; [reflexivity|apply iter_xO].
Qed.

Lemma shr_1_m (mrs : shr_record) :
  0 <= shr_m mrs -> shr_m (shr_1 mrs) = shr_m mrs / 2.
Proof.
  destruct mrs as [m r s]. cbn [shr_m]. intros Hm.
  destruct m as [|[p|p|]|p]; cbn [shr_1 shr_m]; [reflexivity| | |reflexivity|lia].
  - rewrite Pos2Z.inj_xI. apply Z.div_unique with (r := 1); lia.
  - rewrite Pos2Z.inj_xO. apply Z.div_unique with (r := 0); lia.
Qed.

Lemma iter_shr_m (p : positive) :
  forall mrs, 0 <= shr_m mrs ->
    shr_m (iter_pos shr_1 p mrs) = shr_m mrs / 2 ^ Z.pos p.
Proof.
  assert (Hdd : forall a b c, 0 < b -> 0 < c -> a / b / c = a / (b * c)).
  { intros a b c Hb Hc. apply Z.div_div; lia. }
  induction p as [p IH|p IH|]; intros mrs Hm; cbn [iter_pos].
  - assert (Hp : 0 < 2 ^ Z.pos p) by (apply Z.pow_pos_nonneg; lia).
    assert (H1 : 0 <= shr_m (shr_1 mrs))
      by (rewrite shr_1_m by assumption; apply Z.div_pos; lia).
    assert (H2 : 0 <= shr_m (iter_pos shr_1 p (shr_1 mrs)))
      by (rewrite IH by assumption; apply Z.div_pos; lia).
    rewrite IH, IH, shr_1_m by assumption.
    rewrite !Hdd by lia. f_equal.
    change (Z.pos p~1) with (2 * Z.pos p + 1).
    replace (2 * Z.pos p + 1) with (Z.succ (Z.pos p + Z.pos p)) by lia.
    rewrite Z.pow_succ_r, Z.pow_add_r by lia. lia.
  - assert (Hp : 0 < 2 ^ Z.pos p) by (apply Z.pow_pos_nonneg; lia).
    assert (H2 : 0 <= shr_m (iter_pos shr_1 p mrs))
      by (rewrite IH by assumption; apply Z.div_pos; lia).
    rewrite IH, IH by assumption.
    rewrite Hdd by lia. f_equal.
    change (Z.pos p~0) with (2 * Z.pos p).
    replace (2 * Z.pos p) with (Z.pos p + Z.pos p) by lia.
    rewrite Z.pow_add_r by lia. lia.
  - rewrite shr_1_m by assumption. reflexivity.
Qed.

Lemma shr_record_of_loc_m (m : Z) (l : location) :
  shr_m (shr_record_of_loc m l) = m.
Proof. destruct l as [|[]]; reflexivity. Qed.

Lemma shr_fexp_spec (m e : Z) (l : location) :
  0 <= m ->
  snd (shr_fexp prec emax m e l)
  = Z.max e (fexp prec emax (Zdigits2 m + e))
  /\ shr_m (fst (shr_fexp prec emax m e l))
     = m / 2 ^ (Z.max e (fexp prec emax (Zdigits2 m + e)) - e).
Proof.
  intros Hm. unfold shr_fexp, shr.
  destruct (fexp prec emax (Zdigits2 m + e) - e) as [|p|p] eqn:Hn;
    cbn [fst snd].
  - replace (Z.max e _) with e by lia. rewrite Z.sub_diag, shr_record_of_loc_m.
    cbn. rewrite Z.div_1_r. auto.
  - replace (Z.max e _) with (e + Z.pos p) by lia.
    replace (e + Z.pos p - e) with (Z.pos p) by lia.
    rewrite iter_shr_m, shr_record_of_loc_m; auto.
    now rewrite shr_record_of_loc_m.
  - replace (Z.max e _) with e by lia. rewrite Z.sub_diag, shr_record_of_loc_m.
    cbn. rewrite Z.div_1_r. auto.
Qed.

Lemma round_nearest_even_bounds (m : Z) (l : location) :
  m <= round_nearest_even m l <= m + 1.
Proof.
  destruct l as [|[]]; cbn [round_nearest_even]; try lia.
  destruct (Z.even m); lia.
Qed.

Lemma fexp_le (d k : Z) :
  d <= k -> -1074 <= k - 53 -> fexp prec emax d <= k - 53.
Proof. unfold fexp, emin, prec, emax. lia. Qed.

Lemma fexp_ge (d : Z) : -1074 <= fexp prec emax d.
Proof. unfold fexp, emin, prec, emax. lia. Qed.


Lemma pow2_split (a b : Z) : 0 <= a -> 0 <= b -> 2 ^ (a + b) = 2 ^ a * 2 ^ b.
Proof. intros. apply Z.pow_add_r; assumption. Qed.

Lemma pow2_pos (a : Z) : 0 <= a -> 0 < 2 ^ a.
Proof. intros. apply Z.pow_pos_nonneg; lia. Qed.

(** What a chain of two floor shifts with a rounding step in between can
    lose. *)
Lemma floor_chain (mx m1 m2 m3 A K1 K3 : Z) :
  0 < A -> 0 < K1 -> 0 < K3 ->
  m1 = mx / K1 -> m1 <= m2 -> m3 = m2 / K3 ->
  mx * A < m3 * (A * K1 * K3) + A * K1 * K3.
Proof.
  intros HA HK1 HK3 -> H12 ->.
  pose proof (Z.mul_succ_div_gt mx K1 HK1) as H1.
  pose proof (Z.mul_succ_div_gt m2 K3 HK3) as H3.
  set (q1 := mx / K1) in *. set (q3 := m2 / K3) in *.
  assert (mx + 1 <= K1 * (q1 + 1)) as H1' by lia.
  assert (m2 + 1 <= K3 * (q3 + 1)) as H3' by lia.
  assert (K1 * (q1 + 1) <= K1 * (m2 + 1)) as H4
    by (apply Z.mul_le_mono_nonneg_l; lia).
  assert (K1 * (m2 + 1) <= K1 * (K3 * (q3 + 1))) as H5
    by (apply Z.mul_le_mono_nonneg_l; lia).
  assert ((mx + 1) * A <= K1 * (K3 * (q3 + 1)) * A) as H6
    by (apply Z.mul_le_mono_nonneg_r; lia).
  replace (q3 * (A * K1 * K3) + A * K1 * K3)
    with (K1 * (K3 * (q3 + 1)) * A) by ring.
  lia.
Qed.

Lemma binary_round_aux_lower (mx ex : Z) (l : location) :
  0 <= mx -> -1074 <= ex <= -42 -> mx < 2 ^ (11 - ex) ->
  SFnonneg (binary_round_aux prec emax false mx ex l) = true
  /\ mx * 2 ^ (ex + 1074)
     < SFexact (binary_round_aux prec emax false mx ex l) + 2 ^ 1033.
Proof.
  intros Hm He Hlt. unfold binary_round_aux.
  pose proof (shr_fexp_spec mx ex l Hm) as [He1 Hm1].
  destruct (shr_fexp prec emax mx ex l) as [mrs1 e1]. cbn [fst snd] in He1, Hm1.
  set (m1 := shr_m mrs1) in *.
  set (m2 := round_nearest_even m1 (loc_of_shr_record mrs1)).
  pose proof (round_nearest_even_bounds m1 (loc_of_shr_record mrs1)) as Hr.
  fold m2 in Hr.
  assert (Hd1 : Zdigits2 mx + ex <= 11).
  { pose proof (Zdigits2_le mx (11 - ex) Hm ltac:(lia) Hlt). lia. }
  pose proof (fexp_le _ 11 Hd1 ltac:(lia)) as Hf1.
  pose proof (fexp_ge (Zdigits2 mx + ex)) as Hf1'.
  assert (He1' : ex <= e1 <= -42) by lia.
  assert (HK1 : 0 < 2 ^ (e1 - ex)) by (apply pow2_pos; lia).
  assert (Hm1' : 0 <= m1) by (rewrite Hm1, <- He1; apply Z.div_pos; lia).
  assert (Hm1lt : m1 < 2 ^ (11 - e1)).
  { rewrite Hm1, <- He1. apply Z.div_lt_upper_bound; [lia|].
    rewrite <- pow2_split by lia.
    replace (e1 - ex + (11 - e1)) with (11 - ex) by lia. assumption. }
  assert (Hm2 : 0 <= m2) by lia.
  assert (Hm2lt : m2 < 2 ^ (12 - e1)).
  { replace (12 - e1) with (Z.succ (11 - e1)) by lia.
    rewrite Z.pow_succ_r by lia. lia. }
  assert (Hd2 : Zdigits2 m2 + e1 <= 12).
  { pose proof (Zdigits2_le m2 (12 - e1) Hm2 ltac:(lia) Hm2lt). lia. }
  pose proof (fexp_le _ 12 Hd2 ltac:(lia)) as Hf2.
  pose proof (shr_fexp_spec m2 e1 loc_Exact Hm2) as [He3 Hm3].
  destruct (shr_fexp prec emax m2 e1 loc_Exact) as [mrs3 e3].
  cbn [fst snd] in He3, Hm3.
  assert (He3' : e1 <= e3 <= -41) by lia.
  assert (HK3 : 0 < 2 ^ (e3 - e1)) by (apply pow2_pos; lia).
  assert (HA : 0 < 2 ^ (ex + 1074)) by (apply pow2_pos; lia).
  rewrite <- He1 in Hm1. rewrite <- He3 in Hm3.
  pose proof (floor_chain mx m1 m2 (shr_m mrs3) _ _ _ HA HK1 HK3 Hm1
                (proj1 Hr) Hm3) as Hchain.
  rewrite <- !pow2_split in Hchain by lia.
  replace (ex + 1074 + (e1 - ex) + (e3 - e1)) with (e3 + 1074) in Hchain by lia.
  assert (Hle : 2 ^ (e3 + 1074) <= 2 ^ 1033) by (apply Z.pow_le_mono_r; lia).
  assert (Hm3' : 0 <= shr_m mrs3) by (rewrite Hm3; apply Z.div_pos; lia).
  destruct (shr_m mrs3) as [|p|p]; [| |lia].
  - cbn [SFnonneg SFexact]. split; [reflexivity|lia].
  - replace (e3 <=? emax - prec) with true
      by (symmetry; apply Z.leb_le; unfold emax, prec; lia).
    cbn [SFnonneg SFexact cond_Zopp]. split; [reflexivity|lia].
Qed.

Lemma binary_round_lower (m : positive) (e : Z) :
  -1074 <= e -> Z.pos m * 2 ^ (e + 1074) < 2 ^ 1085 ->
  SFnonneg (binary_round prec emax false m e) = true
  /\ Z.pos m * 2 ^ (e + 1074)
     < SFexact (binary_round prec emax false m e) + 2 ^ 1033.
Proof.
  intros He Hlt. unfold binary_round.
  destruct (shl_align_spec m e (fexp prec emax (Z.pos (digits2_pos m) + e)))
    as [Hez Hmz].
  destruct (shl_align m e _) as [mz ez]. cbn [fst snd] in Hez, Hmz.
  assert (HA : 0 < 2 ^ (e + 1074)) by (apply pow2_pos; lia).
  assert (Hm : Z.pos m < 2 ^ (11 - e)).
  { apply Z.mul_lt_mono_pos_r with (p := 2 ^ (e + 1074)); [assumption|].
    destruct (Z.le_gt_cases (11 - e) 0) as [Hneg|Hpos].
    - (* e >= 11: the value is at least 2^1085 *)
      exfalso.
      assert (2 ^ 1085 <= 2 ^ (e + 1074)) by (apply Z.pow_le_mono_r; lia).
      nia.
    - rewrite <- pow2_split by lia.
      replace (11 - e + (e + 1074)) with 1085 by lia. assumption. }
  assert (Hd : Z.pos (digits2_pos m) + e <= 11).
  { pose proof (digits2_le m (11 - e) Hm). lia. }
  pose proof (fexp_le _ 11 Hd ltac:(lia)) as Hf.
  pose proof (fexp_ge (Z.pos (digits2_pos m) + e)) as Hf'.
  assert (Hez' : -1074 <= ez <= -42 /\ ez <= e) by lia.
  assert (Hval : Z.pos mz * 2 ^ (ez + 1074) = Z.pos m * 2 ^ (e + 1074)).
  { rewrite Hmz, <- Hez, <- Z.mul_assoc, <- pow2_split by lia.
    f_equal. f_equal. lia. }
  assert (Hmzlt : Z.pos mz < 2 ^ (11 - ez)).
  { apply Z.mul_lt_mono_pos_r with (p := 2 ^ (ez + 1074));
      [apply pow2_pos; lia|].
    rewrite Hval, <- pow2_split by lia.
    replace (11 - ez + (ez + 1074)) with 1085 by lia. assumption. }
  destruct (binary_round_aux_lower (Z.pos mz) ez loc_Exact ltac:(lia)
              ltac:(lia) Hmzlt) as [Hn Hl].
  rewrite Hval in Hl. auto.
Qed.


Lemma valid_exponent (s : bool) (m : positive) (e : Z) :
  valid_binary (S754_finite s m e) = true ->
  e = fexp prec emax (Z.pos (digits2_pos m) + e) /\ -1074 <= e.
Proof.
  cbn [SpecFloat.valid_binary]. unfold bounded, canonical_mantissa.
  intros H. apply andb_prop in H as [H _]. apply Z.eqb_eq in H.
  split; [now symmetry|]. rewrite <- H. apply fexp_ge.
Qed.

Lemma SFadd_lower (x y : spec_float) :
  valid_binary x = true -> valid_binary y = true ->
  SFnonneg x = true -> SFnonneg y = true ->
  SFexact x + SFexact y < 2 ^ 1085 ->
  SFnonneg (SF64add x y) = true
  /\ SFexact x + SFexact y < SFexact (SF64add x y) + 2 ^ 1033.
Proof.
  assert (Hpos : 0 < 2 ^ 1033) by (apply pow2_pos; lia).
  intros Hvx Hvy Hx Hy Hlt.
  destruct x as [sx| | |sx mx ex]; try discriminate Hx;
    destruct y as [sy| | |sy my ey]; try discriminate Hy.
  - destruct sx, sy; cbn; split; auto; lia.
  - destruct sy; [discriminate Hy|]. cbn -[Z.pow]. split; [reflexivity|lia].
  - destruct sx; [discriminate Hx|]. cbn -[Z.pow]. split; [reflexivity|lia].
  - destruct sx; [discriminate Hx|]. destruct sy; [discriminate Hy|].
    destruct (valid_exponent _ _ _ Hvx) as [_ Hex].
    destruct (valid_exponent _ _ _ Hvy) as [_ Hey].
    unfold SF64add, SFadd.
    destruct (shl_align_spec mx ex (Z.min ex ey)) as [_ Hmx].
    destruct (shl_align_spec my ey (Z.min ex ey)) as [_ Hmy].
    replace (Z.min ex (Z.min ex ey)) with (Z.min ex ey) in Hmx by lia.
    replace (Z.min ey (Z.min ex ey)) with (Z.min ex ey) in Hmy by lia.
    set (ez := Z.min ex ey) in *.
    set (ax := fst (shl_align mx ex ez)) in *.
    set (ay := fst (shl_align my ey ez)) in *.
    cbn [cond_Zopp Z.add binary_normalize].
    cbn [SFexact cond_Zopp] in Hlt |- *.
    assert (Hval : Z.pos (ax + ay) * 2 ^ (ez + 1074)
                   = Z.pos mx * 2 ^ (ex + 1074) + Z.pos my * 2 ^ (ey + 1074)).
    { rewrite Pos2Z.inj_add, Z.mul_add_distr_r, Hmx, Hmy.
      rewrite <- !Z.mul_assoc, <- !pow2_split by lia.
      f_equal; f_equal; f_equal; lia. }
    rewrite <- Hval in Hlt |- *.
    apply binary_round_lower; [lia|assumption].
Qed.

Lemma canonical_order (m1 m2 : positive) (e1 e2 : Z) :
  valid_binary (S754_finite false m1 e1) = true ->
  valid_binary (S754_finite false m2 e2) = true ->
  e2 < e1 ->
  Z.pos m2 * 2 ^ (e2 + 1074) < Z.pos m1 * 2 ^ (e1 + 1074).
Proof.
  intros H1 H2 Hlt.
  destruct (valid_exponent _ _ _ H1) as [Hc1 Hlo1].
  destruct (valid_exponent _ _ _ H2) as [Hc2 Hlo2].
  unfold fexp, emin, prec, emax in Hc1, Hc2.
  assert (Hd1 : Z.pos (digits2_pos m1) = 53) by lia.
  assert (Hd2 : Z.pos (digits2_pos m2) <= 53) by lia.
  destruct (digits2_bounds m1) as [Hlo _]. rewrite Hd1 in Hlo.
  destruct (digits2_bounds m2) as [_ Hhi].
  assert (Hhi' : Z.pos m2 < 2 ^ 53).
  { eapply Z.lt_le_trans; [exact Hhi|]. apply Z.pow_le_mono_r; lia. }
  assert (HA : 0 < 2 ^ (e2 + 1074)) by (apply pow2_pos; lia).
  replace (e1 + 1074) with ((e1 - e2 - 1) + (1 + (e2 + 1074))) by lia.
  rewrite (pow2_split (e1 - e2 - 1)), (pow2_split 1) by lia.
  assert (HB : 0 < 2 ^ (e1 - e2 - 1)) by (apply pow2_pos; lia).
  change (2 ^ 1) with 2. change (2 ^ (53 - 1)) with (2 ^ 52) in Hlo.
  assert (Z.pos m2 * 2 ^ (e2 + 1074) < 2 ^ 53 * 2 ^ (e2 + 1074))
    by (apply Z.mul_lt_mono_pos_r; assumption).
  assert (2 ^ 52 * (2 * 2 ^ (e2 + 1074)) <= Z.pos m1 * (2 * 2 ^ (e2 + 1074)))
    by (apply Z.mul_le_mono_nonneg_r; lia).
  assert (Z.pos m1 * (2 * 2 ^ (e2 + 1074)) * 1
          <= Z.pos m1 * (2 * 2 ^ (e2 + 1074)) * 2 ^ (e1 - e2 - 1))
    by (apply Z.mul_le_mono_nonneg_l; lia).
  change (2 ^ 53) with (2 ^ 52 * 2) in *.
  lia.
Qed.

Lemma SFleb_exact (x y : spec_float) :
  valid_binary x = true -> valid_binary y = true ->
  SFnonneg x = true -> SFnonneg y = true ->
  SFexact x <= SFexact y -> SFleb x y = true.
Proof.
  intros Hvx Hvy Hx Hy Hle.
  destruct x as [sx| | |sx mx ex]; try discriminate Hx;
    destruct y as [sy| | |sy my ey]; try discriminate Hy.
  - reflexivity.
  - destruct sy; [discriminate Hy|]. reflexivity.
  - destruct sx; [discriminate Hx|]. exfalso.
    destruct (valid_exponent _ _ _ Hvx) as [_ Hex].
    cbn [SFexact cond_Zopp] in Hle.
    pose proof (pow2_pos (ex + 1074) ltac:(lia)). nia.
  - destruct sx; [discriminate Hx|]. destruct sy; [discriminate Hy|].
    cbn [SFexact cond_Zopp] in Hle.
    unfold SFleb, SFcompare.
    destruct (Z.compare_spec ex ey) as [Heq|Hlt|Hgt].
    + subst ey. destruct (valid_exponent _ _ _ Hvx) as [_ Hex].
      pose proof (pow2_pos (ex + 1074) ltac:(lia)) as HA.
      assert (Hm : (mx <= my)%positive).
      { apply Pos2Z.pos_le_pos. nia. }
      rewrite Pos.compare_cont_spec. cbn [Pos.switch_Eq].
      apply Pos.compare_le_iff in Hm.
      destruct (mx ?= my)%positive; [reflexivity|reflexivity|congruence].
    + reflexivity.
    + pose proof (canonical_order _ _ _ _ Hvx Hvy Hgt). lia.
Qed.

End Rounding.

(** * Facts on the array helpers *)

Section Arrays.

Context {A : Type}.





Lemma length_mutateAt (f : A -> A) (l : list A) :
  forall n, length (mutateAt n f l) = length l.
Proof.
  induction l as [|a l IH]; intros [|n]; cbn; auto.
Qed.

Lemma nth_error_mutateAt_same (f : A -> A) (l : list A) :
  forall n, nth_error (mutateAt n f l) n = option_map f (nth_error l n).
Proof.
  induction l as [|a l IH]; intros [|n]; cbn; auto.
Qed.

Lemma nth_error_mutateAt_other (f : A -> A) (l : list A) :
  forall n m, m <> n -> nth_error (mutateAt n f l) m = nth_error l m.
Proof.
  induction l as [|a l IH]; intros [|n] [|m] H; cbn; auto; try congruence.
Qed.

End Arrays.

(** * Progression *)

Lemma refill_Refilled (b : Battery.t) : Refilled b (refill b).
Proof. destruct b; repeat split. Qed.

Lemma Forall2_refill (bs : list Battery.t) :
  Forall2 Refilled bs (map refill bs).
Proof.
  induction bs; cbn; constructor; auto using refill_Refilled.
Qed.

(** C8.  The round transition leaves the structures (hence every active flag
    and shield count) as they are, empties both entity pools, adds one to the
    round counter, and gives back the battery row with every battery at its
    maximum ammunition and active, its identity, position and maximum kept.
    Score and level are not touched and the session is PLAYING. *)
Theorem nextRound_frame (g : Game) :
  cities (nextRound g) = cities g
  /\ Forall2 Refilled (batteries g) (batteries (nextRound g))
  /\ rockets (nextRound g) = []
  /\ interceptors (nextRound g) = []
  /\ round (nextRound g) = round g + 1
  /\ level (nextRound g) = level g
  /\ score (nextRound g) = score g
  /\ gameState (nextRound g) = PLAYING.
Proof.
  unfold nextRound; cbn.
  repeat split. apply Forall2_refill.
Qed.

(** C10.  The next-level operation ends in WON exactly when the level has
    reached [MAX_LEVELS] (10); then only the session state changes: level,
    round, score, both pools, structures and batteries are the old ones.
    Below level 10 it adds one to the level, sets the round to 1, empties
    both pools, refills and reactivates every battery, leaves score and
    structures alone, and returns to PLAYING. *)
Theorem nextLevel_spec (g : Game) :
  (gameState (nextLevel g) = WON <-> MAX_LEVELS <= level g)
  /\ (MAX_LEVELS <= level g ->
        level (nextLevel g) = level g
        /\ round (nextLevel g) = round g
        /\ score (nextLevel g) = score g
        /\ rockets (nextLevel g) = rockets g
        /\ interceptors (nextLevel g) = interceptors g
        /\ cities (nextLevel g) = cities g
        /\ batteries (nextLevel g) = batteries g)
  /\ (level g < MAX_LEVELS ->
        gameState (nextLevel g) = PLAYING
        /\ level (nextLevel g) = level g + 1
        /\ round (nextLevel g) = 1
        /\ score (nextLevel g) = score g
        /\ rockets (nextLevel g) = []
        /\ interceptors (nextLevel g) = []
        /\ cities (nextLevel g) = cities g
        /\ Forall2 Refilled (batteries g) (batteries (nextLevel g))).
Proof.
  unfold nextLevel.
  destruct (Z.leb_spec MAX_LEVELS (level g)) as [Hle|Hlt]; cbn.
  - repeat split; auto; intros; lia.
  - repeat split; auto using Forall2_refill; intros; try lia; discriminate.
Qed.

(** The last level and one before it. *)
Lemma nextLevel_spec_witness :
  gameState (nextLevel (mkGame ROUND_END 2000 10 3 [] []
                               initialCities initialBatteries)) = WON
  /\ level (nextLevel (mkGame ROUND_END 600 3 2 [] []
                              initialCities initialBatteries)) = 4.
Proof.
  split.
  - apply (proj1 (nextLevel_spec _)). unfold MAX_LEVELS; cbn. lia.
  - refine (proj1 (proj2 (proj2 (proj2 (nextLevel_spec _)) _))).
    unfold MAX_LEVELS; cbn. lia.
Defined.

(** * Termination checks *)

Lemma allDown_iff (g : Game) : allDown (batteries g) = true <-> AllDown g.
Proof.
  unfold allDown, AllDown. rewrite forallb_forall, Forall_forall.
  split; intros H b Hb; specialize (H b Hb);
    destruct (Battery.active b); cbn in *; congruence.
Qed.

Lemma fold_left_missiles (bs : list Battery.t) :
  forall a, fold_left (fun acc b => acc + Battery.missiles b) bs a
            = a + ammoLeft bs.
Proof.
  unfold ammoLeft.
  induction bs as [|b bs IH]; cbn [fold_left fold_right map]; intros a;
    [lia|]. rewrite IH. lia.
Qed.

Lemma totalMissiles_ammoLeft (bs : list Battery.t) :
  totalMissiles bs = ammoLeft bs.
Proof. unfold totalMissiles. now rewrite fold_left_missiles. Qed.

Lemma fieldSpent_iff (g : Game) : fieldSpent g = true <-> Spent g.
Proof.
  unfold fieldSpent, Spent.
  rewrite !andb_true_iff, Z.eqb_eq, !Nat.eqb_eq, !length_zero_iff_nil,
    totalMissiles_ammoLeft.
  tauto.
Qed.

Lemma fold_left_shields (cs : list City.t) :
  forall a, fold_left (fun acc c => acc + City.shields c * 20) cs a
            = a + 20 * shieldSum cs.
Proof.
  unfold shieldSum.
  induction cs as [|c cs IH]; cbn [fold_left fold_right map]; intros a;
    [lia|]. rewrite IH. lia.
Qed.

Lemma bonus_completionBonus (g : Game) : bonus (cities g) = completionBonus g.
Proof.
  unfold bonus, completionBonus. rewrite fold_left_shields. lia.
Qed.

Lemma simulate_level (g : Game) : level (simulate g) = level g.
Proof.
  unfold simulate.
  destruct (updateRockets _ _) as [rs1 [cs bs]].
  destruct (updateInterceptors _ _) as [ics1 [rs2 sc]]. reflexivity.
Qed.

Lemma spawnRocket_level (env : Env) (g : Game) :
  level (spawnRocket env g) = level g.
Proof.
  unfold spawnRocket.
  destruct (Nat.eqb _ _); [reflexivity|].
  destruct (nth_error _ _); reflexivity.
Qed.

Lemma afterCleanup_level (time last : float) (env : Env) (g : Game) :
  level (afterCleanup time last env g) = level g.
Proof.
  unfold afterCleanup, spawnPhase. rewrite simulate_level.
  destruct (_ <? _)%float; cbn; auto using spawnRocket_level.
Qed.

Lemma update_terminate (time last : float) (env : Env) (g : Game) :
  snd (update time last env g)
  = terminate (score g) (afterCleanup time last env g).
Proof.
  unfold update, afterCleanup.
  destruct (spawnPhase time last env g); reflexivity.
Qed.

(** C1, as the code has it.  Let [g1] be the component after the cleanup of
    one step and [g2] the component after the step.  The loss and goal checks
    are an if / else-if; the ammunition-exhaustion check is a statement of its
    own that runs after them in every step.  Hence: (a) all batteries inactive
    and the field not spent: LOST, whatever the score; (b) some battery
    active, goal reached, field not spent: ROUND_END with no bonus; (c) some
    battery active and field spent: the completion bonus
    [50 * activeStructureCount + 20 * sum activeStructureShields] is added
    and the state is ROUND_END, whether the goal was reached or not;
    (d) none of the three: the step leaves state and score as the cleanup
    left them.  The checks change nothing but state and score. *)
Theorem termination_checks (time last : float) (env : Env) (g : Game) :
  (AllDown (afterCleanup time last env g) ->
   ~ Spent (afterCleanup time last env g) ->
     gameState (snd (update time last env g)) = LOST
     /\ score (snd (update time last env g))
        = score (afterCleanup time last env g))
  /\ (~ AllDown (afterCleanup time last env g) ->
      GoalReached (score g) g ->
      ~ Spent (afterCleanup time last env g) ->
        gameState (snd (update time last env g)) = ROUND_END
        /\ score (snd (update time last env g))
           = score (afterCleanup time last env g))
  /\ (~ AllDown (afterCleanup time last env g) ->
      Spent (afterCleanup time last env g) ->
        gameState (snd (update time last env g)) = ROUND_END
        /\ score (snd (update time last env g))
           = score (afterCleanup time last env g)
             + completionBonus (afterCleanup time last env g))
  /\ (~ AllDown (afterCleanup time last env g) ->
      ~ GoalReached (score g) g ->
      ~ Spent (afterCleanup time last env g) ->
        gameState (snd (update time last env g)) = gameState g
        /\ score (snd (update time last env g))
           = score (afterCleanup time last env g))
  /\ (level (snd (update time last env g)) = level g
      /\ round (snd (update time last env g))
         = round (afterCleanup time last env g)
      /\ rockets (snd (update time last env g))
         = rockets (afterCleanup time last env g)
      /\ interceptors (snd (update time last env g))
         = interceptors (afterCleanup time last env g)
      /\ cities (snd (update time last env g))
         = cities (afterCleanup time last env g)
      /\ batteries (snd (update time last env g))
         = batteries (afterCleanup time last env g)).
Proof.
  rewrite update_terminate.
  pose proof (afterCleanup_level time last env g) as Hlevel.
  assert (Hstate : gameState (afterCleanup time last env g) = gameState g).
  { unfold afterCleanup, simulate, spawnPhase, spawnRocket.
    destruct (_ <? _)%float; cbn.
    - destruct (Nat.eqb _ _); [|destruct (nth_error _ _)];
        destruct (updateRockets _ _) as [rs1 [cs bs]];
        destruct (updateInterceptors _ _) as [ics1 [rs2 sc]]; reflexivity.
    - destruct (updateRockets _ _) as [rs1 [cs bs]];
        destruct (updateInterceptors _ _) as [ics1 [rs2 sc]]; reflexivity. }
  revert Hlevel Hstate.
  generalize (afterCleanup time last env g) as g1. intros g1 Hlevel Hstate.
  unfold GoalReached. rewrite <- Hlevel, <- Hstate.
  rewrite <- (allDown_iff g1), <- (fieldSpent_iff g1).
  rewrite <- bonus_completionBonus.
  unfold terminate, checkRoundEnd, checkGameOver.
  destruct (allDown (batteries g1)) eqn:Hdown.
  - assert (Hf : fieldSpent (setGameState LOST g1) = fieldSpent g1)
      by reflexivity.
    rewrite Hf.
    destruct (fieldSpent g1) eqn:Hspent; cbn;
      repeat split; intros; try congruence; try reflexivity.
  - destruct (Z.leb_spec (level g1 * WIN_SCORE_PER_LEVEL) (score g)) as [Hg|Hg].
    + assert (Hf : fieldSpent (setGameState ROUND_END g1) = fieldSpent g1)
        by reflexivity.
      rewrite Hf.
      destruct (fieldSpent g1) eqn:Hspent; cbn;
        repeat split; intros; try congruence; try reflexivity; try lia.
    + destruct (fieldSpent g1) eqn:Hspent; cbn;
        repeat split; intros; try congruence; try reflexivity; try lia.
Qed.

(** With the goal reached, a battery standing, and ammunition and field
    spent, the exhaustion check still runs: the step adds the bonus of 660
    (six structures, eighteen shields) to the score.  The goal check does not
    come "before" it, and the lower-priority check decides the score. *)
Lemma goal_does_not_preempt_bonus :
  GoalReached (score gGoalSpent) gGoalSpent
  /\ ~ AllDown gGoalSpent
  /\ gameState (snd (update 0 0 quietEnv gGoalSpent)) = ROUND_END
  /\ score (snd (update 0 0 quietEnv gGoalSpent)) = score gGoalSpent + 660
  /\ score (snd (update 0 0 quietEnv gGoalSpent)) <> score gGoalSpent.
Proof.
  split; [unfold GoalReached; cbn; unfold WIN_SCORE_PER_LEVEL; lia|].
  split; [intros H; inversion H; discriminate|].
  split; [vm_compute; reflexivity|].
  split; [vm_compute; reflexivity|].
  vm_compute. discriminate.
Qed.

(** The same independence lets the exhaustion check overwrite LOST: every
    battery down, no ammunition, empty field gives ROUND_END. *)
Remark lost_overwritten_when_spent :
  AllDown gAllDownSpent
  /\ gameState (snd (update 0 0 quietEnv gAllDownSpent)) = ROUND_END.
Proof.
  split; [repeat constructor | vm_compute; reflexivity].
Qed.

(** Clause (c) at [gGoalSpent] and clause (a) at [gAllDown]. *)
Lemma termination_checks_witness :
  (gameState (snd (update 0 0 quietEnv gGoalSpent)) = ROUND_END
   /\ score (snd (update 0 0 quietEnv gGoalSpent))
      = score (afterCleanup 0 0 quietEnv gGoalSpent)
        + completionBonus (afterCleanup 0 0 quietEnv gGoalSpent))
  /\ (gameState (snd (update 0 0 quietEnv gAllDown)) = LOST
      /\ score (snd (update 0 0 quietEnv gAllDown))
         = score (afterCleanup 0 0 quietEnv gAllDown)).
Proof.
  split.
  - apply (proj1 (proj2 (proj2 (termination_checks 0 0 quietEnv gGoalSpent)))).
    + rewrite <- allDown_iff. vm_compute. discriminate.
    + rewrite <- fieldSpent_iff. vm_compute. reflexivity.
  - apply (proj1 (termination_checks 0 0 quietEnv gAllDown)).
    + rewrite <- allDown_iff. vm_compute. reflexivity.
    + rewrite <- fieldSpent_iff. vm_compute. discriminate.
Defined.

(** * Spawn policy *)



(** * Impact resolution *)



Ltac enumerate_rows :=
  repeat match goal with
         | H : nth_error (_ :: _) ?i = Some _ |- _ =>
             destruct i; cbn [nth_error] in H
         | H : nth_error [] ?i = Some _ |- _ => destruct i; discriminate H
         | H : Some _ = Some _ |- _ => inversion H; subst; clear H
         end.

Lemma initial_layout_disjoint : DisjointLayout initialCities initialBatteries.
Proof.
  unfold DisjointLayout, initialCities, initialBatteries.
  repeat split.
  - intros i j c c' Hi Hj. enumerate_rows; intros H;
      first [reflexivity | vm_compute in H; discriminate H].
  - intros i j b b' Hi Hj. enumerate_rows; intros H;
      first [reflexivity | vm_compute in H; discriminate H].
  - intros c b Hc Hb. cbn in Hc, Hb.
    repeat (destruct Hc as [<-|Hc]);
      repeat (destruct Hb as [<-|Hb]); try contradiction; reflexivity.
Qed.

Section Impact.

Variables (cs : list City.t) (bs : list Battery.t).
Hypothesis layout : DisjointLayout cs bs.





End Impact.



(** * Input: fire requests and taps *)

Section Closest.

Variable ax : float.

Lemma closestFrom_inv (bs : list Battery.t) :
  forall pre n minDist best,
    n = length pre ->
    closest_inv ax (pre ++ bs) pre minDist best ->
    closest_inv ax (pre ++ bs) (pre ++ bs)
                (fst (closestFrom ax bs n minDist best))
                (snd (closestFrom ax bs n minDist best)).
Proof.
  induction bs as [|b bs IH]; intros pre n minDist best Hn Hinv.
  - cbn. now rewrite app_nil_r in *.
  - cbn [closestFrom].
    assert (Hrow : pre ++ b :: bs = (pre ++ [b]) ++ bs)
      by now rewrite <- app_assoc.
    assert (Hlen : S n = length (pre ++ [b]))
      by (rewrite length_app; cbn; lia).
    destruct Hinv as (Hseen & Hbest).
    destruct (hasAmmo b) eqn:Hammo.
    + fold (gap ax b).
      destruct (gap ax b <? minDist)%float eqn:Hlt.
      * rewrite Hrow. apply IH; [exact Hlen|]. split.
        -- intros b' Hin Hb'. apply in_app_or in Hin.
           destruct Hin as [Hin|[<-|[]]].
           ++ destruct (gap ax b' <? gap ax b)%float eqn:Hcmp; [|reflexivity].
              rewrite <- (Hseen b' Hin Hb'). symmetry.
              now apply (ltb_trans _ (gap ax b)).
           ++ apply ltb_irrefl.
        -- rewrite <- Hrow. repeat split; auto.
           rewrite Hn, nth_error_app2, Nat.sub_diag by lia. reflexivity.
      * rewrite Hrow. apply IH; [exact Hlen|]. split.
        -- intros b' Hin Hb'. apply in_app_or in Hin.
           destruct Hin as [Hin|[<-|[]]]; auto.
        -- rewrite <- Hrow. exact Hbest.
    + rewrite Hrow. apply IH; [exact Hlen|]. split.
      * intros b' Hin Hb'. apply in_app_or in Hin.
        destruct Hin as [Hin|[<-|[]]]; auto. congruence.
      * rewrite <- Hrow. exact Hbest.
Qed.

Lemma closestBattery_Some (bs : list Battery.t) (n : nat) (b : Battery.t) :
  closestBattery ax bs = Some (n, b) ->
  nth_error bs n = Some b /\ hasAmmo b = true /\ Nearest ax bs b.
Proof.
  unfold closestBattery. intros H.
  pose proof (closestFrom_inv bs [] 0 infinity None eq_refl) as Hinv.
  cbn [app] in Hinv. rewrite H in Hinv.
  destruct Hinv as (Hseen & Hn & Hammo & Hmin).
  - split; [intros b' []|reflexivity].
  - repeat split; auto. intros b' Hin Hb'. rewrite <- Hmin. now apply Hseen.
Qed.

Lemma closestBattery_None (bs : list Battery.t) :
  closestBattery ax bs = None ->
  forall b, In b bs -> hasAmmo b = true ->
    (gap ax b <? infinity)%float = false.
Proof.
  unfold closestBattery. intros H.
  pose proof (closestFrom_inv bs [] 0 infinity None eq_refl) as Hinv.
  cbn [app] in Hinv. rewrite H in Hinv.
  destruct Hinv as (Hseen & Hmin).
  - split; [intros b' []|reflexivity].
  - intros b Hin Hb. rewrite <- Hmin. now apply Hseen.
Qed.

Lemma closestFrom_no_ammo (bs : list Battery.t) :
  (forall b, In b bs -> hasAmmo b = false) ->
  forall n minDist best,
    closestFrom ax bs n minDist best = (minDist, best).
Proof.
  induction bs as [|b bs IH]; intros H n minDist best; cbn; [reflexivity|].
  rewrite (H b (or_introl eq_refl)). apply IH.
  intros b' Hb'. apply H. now right.
Qed.

Lemma closestBattery_no_ammo (bs : list Battery.t) :
  (forall b, In b bs -> hasAmmo b = false) -> closestBattery ax bs = None.
Proof.
  intros H. unfold closestBattery. now rewrite closestFrom_no_ammo.
Qed.

End Closest.

Lemma spend_FiredOnce (b : Battery.t) : FiredOnce b (spend b).
Proof. repeat split. Qed.

Lemma createInterceptor_Launched (ident : float) (b : Battery.t)
    (ax ay off : float) :
  Launched b ax ay off (createInterceptor ident (spend b) ax ay off).
Proof. repeat split. Qed.

(** C6.  A fire request made while PLAYING that selects battery [b], at
    position [n] of the row, takes exactly one missile from that battery and
    leaves every other battery as it was.  If [b] is the center battery
    (id 1) it pushes exactly three interceptors, launched with lateral
    offsets -30, 0 and +30 on both the origin and the aim point; any other
    battery pushes exactly one, with offset 0, hence aimed at the tap point
    (its target equals the tap point as numbers).  Nothing else changes. *)
Theorem fire_request (fresh : nat -> float) (ax ay : float) (g : Game)
    (n : nat) (b : Battery.t) :
  gameState g = PLAYING ->
  closestBattery ax (batteries g) = Some (n, b) ->
  nth_error (batteries g) n = Some b
  /\ (exists b',
        nth_error (batteries (fireInterceptor fresh ax ay g)) n = Some b'
        /\ FiredOnce b b')
  /\ (forall m, m <> n ->
        nth_error (batteries (fireInterceptor fresh ax ay g)) m
        = nth_error (batteries g) m)
  /\ (Battery.id b = 1 ->
        exists i1 i2 i3,
          interceptors (fireInterceptor fresh ax ay g)
          = interceptors g ++ [i1; i2; i3]
          /\ Launched b ax ay (-30) i1
          /\ Launched b ax ay 0 i2
          /\ Launched b ax ay 30 i3)
  /\ (Battery.id b <> 1 ->
        exists i,
          interceptors (fireInterceptor fresh ax ay g) = interceptors g ++ [i]
          /\ Launched b ax ay 0 i
          /\ (is_nan ax = false ->
                (Point.x (Interceptor.target i) =? ax)%float = true)
          /\ Point.y (Interceptor.target i) = ay)
  /\ rockets (fireInterceptor fresh ax ay g) = rockets g
  /\ cities (fireInterceptor fresh ax ay g) = cities g
  /\ score (fireInterceptor fresh ax ay g) = score g
  /\ level (fireInterceptor fresh ax ay g) = level g
  /\ round (fireInterceptor fresh ax ay g) = round g
  /\ gameState (fireInterceptor fresh ax ay g) = PLAYING.
Proof.
  intros Hplay Hsel.
  destruct (closestBattery_Some ax _ _ _ Hsel) as (Hn & _ & _).
  unfold fireInterceptor. rewrite Hplay, Hsel. cbn [batteries interceptors
    rockets cities score level round gameState].
  split; [exact Hn|]. split; [|split; [|split; [|split]]].
  - exists (spend b). rewrite nth_error_mutateAt_same, Hn.
    split; [reflexivity | apply spend_FiredOnce].
  - intros m Hm. now apply nth_error_mutateAt_other.
  - intros Hid. unfold salvo. cbn [Battery.id spend]. rewrite Hid. cbn [Z.eqb].
    do 3 eexists. split; [reflexivity|].
    repeat split.
  - intros Hid. unfold salvo. cbn [Battery.id spend].
    destruct (Z.eqb_spec (Battery.id b) 1) as [Heq|_]; [contradiction|].
    eexists. split; [reflexivity|]. split; [repeat split|].
    split; [|reflexivity]. intros Hnum. now apply add_zero_same.
  - repeat split; auto.
Qed.

(** A tap at (480, 300) on the fresh game: the center battery fires three. *)
Lemma fire_request_witness :
  exists i1 i2 i3,
    interceptors (fireInterceptor (freshId quietEnv) 480 300
                                  (resetGame mounted))
    = interceptors (resetGame mounted) ++ [i1; i2; i3]
    /\ Launched (Battery.mk 1 500 40 40 true) 480 300 (-30) i1
    /\ Launched (Battery.mk 1 500 40 40 true) 480 300 0 i2
    /\ Launched (Battery.mk 1 500 40 40 true) 480 300 30 i3.
Proof.
  refine (proj1 (proj2 (proj2 (proj2
            (fire_request (freshId quietEnv) 480 300 (resetGame mounted)
                          1%nat (Battery.mk 1 500 40 40 true) _ _)))) _).
  - reflexivity.
  - vm_compute. reflexivity.
  - reflexivity.
Defined.

Lemma bursts_Burst (fresh : nat -> float) (rs : list Rocket.t) :
  forall n, Forall2 Burst rs (bursts fresh n rs).
Proof.
  induction rs as [|r rs IH]; intros n; cbn; constructor; auto.
  repeat split.
Qed.

(** The loop of lines 611-632 in closed form. *)
Lemma directHits_spec (fresh : nat -> float) (x y : float)
    (rs : list Rocket.t) :
  forall t,
    directHits fresh x y rs t
    = (map (strike x y) rs,
       mkTap (directHit t || existsb (tapped x y) rs)
             (tapScore t + 20 * Z.of_nat (length (filter (tapped x y) rs)))
             (tapPool t
              ++ bursts fresh (length (tapPool t))
                        (filter (tapped x y) rs))).
Proof.
  induction rs as [|r rs IH]; intros t.
  - cbn. rewrite orb_false_r, Z.add_0_r, app_nil_r. now destruct t.
  - cbn [directHits map existsb filter]. unfold strike at 1.
    destruct (tapped x y r) eqn:Hr.
    + rewrite IH. cbn [directHit tapScore tapPool length bursts].
      rewrite orb_true_r, <- app_assoc, length_app. cbn [length app].
      rewrite Nat.add_1_r. cbn [orb]. f_equal. f_equal. lia.
    + rewrite IH. cbn [orb]. reflexivity.
Qed.

Lemma no_hit_existsb (x y : float) (rs : list Rocket.t) :
  filter (tapped x y) rs = [] -> existsb (tapped x y) rs = false.
Proof.
  induction rs as [|r rs IH]; cbn [filter existsb]; [reflexivity|].
  destruct (tapped x y r); [intros H; discriminate H | exact IH].
Qed.

Lemma hit_existsb (x y : float) (rs : list Rocket.t) :
  filter (tapped x y) rs <> [] -> existsb (tapped x y) rs = true.
Proof.
  induction rs as [|r rs IH]; cbn [filter existsb]; [congruence|].
  destruct (tapped x y r); [reflexivity | exact IH].
Qed.

Lemma no_hit_strike (x y : float) (rs : list Rocket.t) :
  filter (tapped x y) rs = [] -> map (strike x y) rs = rs.
Proof.
  induction rs as [|r rs IH]; cbn [filter map]; [reflexivity|].
  unfold strike at 1.
  destruct (tapped x y r); [intros H; discriminate H|].
  intros H. now rewrite IH.
Qed.

Lemma liveHit_tapped (x y : float) (rs : list Rocket.t) :
  Forall (fun r => Rocket.destroyed r = false) rs ->
  filter (liveHit x y) rs = filter (tapped x y) rs.
Proof.
  intros H. apply filter_ext_in. intros r Hr. unfold liveHit.
  rewrite Forall_forall in H. now rewrite (H r Hr).
Qed.

(** C5, as the code has it.  A tap at [(x, y)] while PLAYING, on a pool of
    live rockets.  Every non-destroyed rocket at distance below 30 from the
    tap is marked destroyed, is credited 20 points, and pushes one
    interceptor that is EXPLODING from the start (no flight), placed at the
    rocket's position, with radius 10 of a nominal maximum of 60.  If at
    least one rocket was hit no fire request is made: batteries are
    untouched.  Otherwise the tap is a fire request at [(x, y)]: the battery
    that fires is active, has ammunition, and no other such battery is
    strictly nearer to [x] in absolute difference; some battery fires
    whenever one with ammunition is at a distance below Infinity; and when
    no battery is active with ammunition the tap changes nothing at all. *)
Theorem tap_resolution (fresh : nat -> float) (x y : float) (g : Game) :
  gameState g = PLAYING ->
  LivePool g ->
  (filter (liveHit x y) (rockets g) <> [] ->
     rockets (handleCanvasClick fresh x y g) = map (strike x y) (rockets g)
     /\ score (handleCanvasClick fresh x y g)
        = score g + 20 * Z.of_nat (length (filter (liveHit x y) (rockets g)))
     /\ interceptors (handleCanvasClick fresh x y g)
        = interceptors g
          ++ bursts fresh (length (interceptors g))
                    (filter (liveHit x y) (rockets g))
     /\ Forall2 Burst (filter (liveHit x y) (rockets g))
                (bursts fresh (length (interceptors g))
                        (filter (liveHit x y) (rockets g)))
     /\ batteries (handleCanvasClick fresh x y g) = batteries g
     /\ cities (handleCanvasClick fresh x y g) = cities g
     /\ level (handleCanvasClick fresh x y g) = level g
     /\ round (handleCanvasClick fresh x y g) = round g
     /\ gameState (handleCanvasClick fresh x y g) = PLAYING)
  /\ (filter (liveHit x y) (rockets g) = [] ->
        handleCanvasClick fresh x y g = fireInterceptor fresh x y g
        /\ (forall n b,
              closestBattery x (batteries g) = Some (n, b) ->
              nth_error (batteries g) n = Some b
              /\ hasAmmo b = true
              /\ Nearest x (batteries g) b
              /\ batteries (handleCanvasClick fresh x y g)
                 = mutateAt n spend (batteries g)
              /\ interceptors (handleCanvasClick fresh x y g)
                 = interceptors g
                   ++ salvo fresh (length (interceptors g)) (spend b) x y
              /\ score (handleCanvasClick fresh x y g) = score g)
        /\ (forall b, In b (batteries g) -> hasAmmo b = true ->
              (gap x b <? infinity)%float = true ->
              exists n b0, closestBattery x (batteries g) = Some (n, b0))
        /\ ((forall b, In b (batteries g) -> hasAmmo b = false) ->
              handleCanvasClick fresh x y g = g)).
Proof.
  intros Hplay Hlive. rewrite (liveHit_tapped x y _ Hlive).
  unfold handleCanvasClick. rewrite Hplay, directHits_spec.
  cbn [directHit tapScore tapPool orb]. split.
  - intros Hhit. rewrite (hit_existsb _ _ _ Hhit).
    cbn [rockets score interceptors batteries cities level round gameState].
    repeat split; auto using bursts_Burst.
  - intros Hnone. rewrite (no_hit_existsb _ _ _ Hnone), Hnone.
    rewrite (no_hit_strike _ _ _ Hnone). cbn [length bursts Z.of_nat].
    rewrite Z.mul_0_r, Z.add_0_r, app_nil_r.
    assert (Hg : mkGame PLAYING (score g) (level g) (round g) (rockets g)
                        (interceptors g) (cities g) (batteries g) = g)
      by (rewrite <- Hplay; now destruct g).
    rewrite Hg. split; [reflexivity|]. split; [|split].
    + intros n b Hsel.
      destruct (closestBattery_Some x _ _ _ Hsel) as (Hn & Hammo & Hnear).
      unfold fireInterceptor. rewrite Hplay, Hsel. repeat split; auto.
    + intros b Hin Hammo Hgap.
      destruct (closestBattery x (batteries g)) as [[n b0]|] eqn:Hsel; eauto.
      rewrite (closestBattery_None x _ Hsel b Hin Hammo) in Hgap.
      discriminate.
    + intros Hdry. unfold fireInterceptor.
      now rewrite Hplay, (closestBattery_no_ammo x _ Hdry).
Qed.

(** A tap 10 units beside the live rocket of [gOneRocket] hits it, and the
    explosion pushed is not at full radius: it has radius 10, its maximum is
    60.  (It also sits on the rocket, at x = 300, not on the tap point.) *)
Lemma tap_burst_not_full_radius :
  (exists r,
     rockets gOneRocket = [r]
     /\ Rocket.destroyed r = false
     /\ tapped 310 400 r = true)
  /\ ~ (forall i,
          In i (interceptors
                  (handleCanvasClick (freshId quietEnv) 310 400 gOneRocket)) ->
          (Interceptor.explosionRadius i
           =? Interceptor.maxExplosionRadius i)%float = true).
Proof.
  split.
  - eexists. split; [reflexivity|]. split; vm_compute; reflexivity.
  - intros H.
    specialize (H (burst (freshId quietEnv 0)
                         (Rocket.mk 7 (Point.mk 300 0) (Point.mk 300 400)
                                    (Point.mk 300 780) (rocketSpeed 1 1)
                                    false))).
    assert (Hin : (10 =? 60)%float = true).
    { apply H. vm_compute. left. reflexivity. }
    vm_compute in Hin. discriminate Hin.
Qed.

(** Two taps on the same rocket before the next cleanup: the tap loop does
    not look at the destroyed flag, so the rocket is credited twice. *)
Remark second_tap_credits_again :
  score (handleCanvasClick (freshId quietEnv) 310 400 gOneRocket) = 20
  /\ score (handleCanvasClick (freshId quietEnv) 310 400
              (handleCanvasClick (freshId quietEnv) 310 400 gOneRocket)) = 40.
Proof. split; vm_compute; reflexivity. Qed.

(** The same tap, by the theorem: 20 points and one explosion. *)
Lemma tap_resolution_witness :
  rockets (handleCanvasClick (freshId quietEnv) 310 400 gOneRocket)
  = map (strike 310 400) (rockets gOneRocket)
  /\ score (handleCanvasClick (freshId quietEnv) 310 400 gOneRocket)
     = score gOneRocket
       + 20 * Z.of_nat (length (filter (liveHit 310 400) (rockets gOneRocket)))
  /\ interceptors (handleCanvasClick (freshId quietEnv) 310 400 gOneRocket)
     = interceptors gOneRocket
       ++ bursts (freshId quietEnv) (length (interceptors gOneRocket))
                 (filter (liveHit 310 400) (rockets gOneRocket))
  /\ Forall2 Burst (filter (liveHit 310 400) (rockets gOneRocket))
             (bursts (freshId quietEnv) (length (interceptors gOneRocket))
                     (filter (liveHit 310 400) (rockets gOneRocket)))
  /\ batteries (handleCanvasClick (freshId quietEnv) 310 400 gOneRocket)
     = batteries gOneRocket
  /\ cities (handleCanvasClick (freshId quietEnv) 310 400 gOneRocket)
     = cities gOneRocket
  /\ level (handleCanvasClick (freshId quietEnv) 310 400 gOneRocket)
     = level gOneRocket
  /\ round (handleCanvasClick (freshId quietEnv) 310 400 gOneRocket)
     = round gOneRocket
  /\ gameState (handleCanvasClick (freshId quietEnv) 310 400 gOneRocket)
     = PLAYING.
Proof.
  refine (proj1 (tap_resolution (freshId quietEnv) 310 400 gOneRocket _ _) _).
  - reflexivity.
  - repeat constructor.
  - vm_compute. discriminate.
Defined.

(** * Kinematics *)

Lemma velocity_degenerate (start target : Point.t) (speed : float) :
  degenerate start target -> velocity start target speed = Point.mk nan nan.
Proof.
  intros (Hx & Hy & Hfx & Hfy). unfold velocity.
  destruct (sub_eq_zero _ _ Hx Hfx) as [sx Hdx].
  destruct (sub_eq_zero _ _ Hy Hfy) as [sy Hdy].
  set (dx := (Point.x target - Point.x start)%float) in *.
  set (dy := (Point.y target - Point.y start)%float) in *.
  assert (Hdist : Prim2SF (sqrt (dx * dx + dy * dy)) = S754_zero false).
  { apply sqrt_plus_zero, add_plus_zeros; eapply square_of_zero; eauto. }
  rewrite (zero_div_zero _ _ _ _ Hdx Hdist), (zero_div_zero _ _ _ _ Hdy Hdist).
  now rewrite nan_mul.
Qed.

Lemma advance_nan (p : Point.t) : advance p (Point.mk nan nan) = Point.mk nan nan.
Proof. unfold advance. cbn. now rewrite !add_nan. Qed.

Lemma distance_nan (t : Point.t) : distance (Point.mk nan nan) t = nan.
Proof.
  unfold distance. cbn. rewrite !nan_sub, !nan_mul. reflexivity.
Qed.

(** C3, as the code has it.  When origin and target coincide the direction
    is 0/0: the step does not fail, but it is not a no-op either.  A rocket's
    position becomes (NaN, NaN); it does not land, its destroyed flag and the
    ground are untouched.  A FLYING interceptor's position becomes (NaN, NaN);
    it stays FLYING, pushes nothing on the rockets or the score, and the
    cleanup keeps it. *)
Theorem degenerate_kinematics :
  (forall r w,
     degenerate (Rocket.start r) (Rocket.target r) ->
     stepRocket w r = (Rocket.set_pos (Point.mk nan nan) r, w)
     /\ lostPosition (Rocket.pos (fst (stepRocket w r))) = true
     /\ Rocket.destroyed (fst (stepRocket w r)) = Rocket.destroyed r)
  /\ (forall i st,
        Interceptor.state i = FLYING ->
        degenerate (Interceptor.start i) (Interceptor.target i) ->
        stepInterceptor st i = (Interceptor.set_pos (Point.mk nan nan) i, st)
        /\ lostPosition (Interceptor.pos (fst (stepInterceptor st i))) = true
        /\ Interceptor.state (fst (stepInterceptor st i)) = FLYING
        /\ keepInterceptor (fst (stepInterceptor st i)) = true).
Proof.
  split.
  - intros r w Hdeg.
    assert (Hstep : stepRocket w r = (Rocket.set_pos (Point.mk nan nan) r, w)).
    { unfold stepRocket, moveRocket.
      rewrite (velocity_degenerate _ _ _ Hdeg), advance_nan.
      unfold landed. cbn [Rocket.set_pos Rocket.pos Rocket.target Point.y].
      now rewrite leb_nan. }
    rewrite Hstep. repeat split.
  - intros i st Hfly Hdeg.
    assert (Hstep : stepInterceptor st i
                    = (Interceptor.set_pos (Point.mk nan nan) i, st)).
    { unfold stepInterceptor, fly. rewrite Hfly.
      rewrite (velocity_degenerate _ _ _ Hdeg), advance_nan.
      cbn [Interceptor.set_pos Interceptor.pos Interceptor.target
           Interceptor.speed].
      now rewrite distance_nan, nan_ltb. }
    rewrite Hstep. cbn [fst Interceptor.set_pos Interceptor.pos
                        Interceptor.state].
    repeat split; auto.
    unfold keepInterceptor. cbn [Interceptor.state Interceptor.set_pos].
    rewrite Hfly. apply orb_true_r.
Qed.

(** After the tap on the launch point, one frame turns the position of all
    three interceptors into NaN: it is neither unchanged nor well defined. *)
Lemma degenerate_flight_loses_position :
  Forall (fun i => Interceptor.start i = Interceptor.target i)
         (interceptors gTapOnLaunchPoint)
  /\ length (interceptors gTapOnLaunchPoint) = 3%nat
  /\ forallb (fun i => lostPosition (Interceptor.pos i))
             (interceptors (snd (update 16 0 quietEnv gTapOnLaunchPoint)))
     = true
  /\ length (interceptors (snd (update 16 0 quietEnv gTapOnLaunchPoint)))
     = 3%nat
  /\ ~ (map Interceptor.pos
            (interceptors (snd (update 16 0 quietEnv gTapOnLaunchPoint)))
        = map Interceptor.pos (interceptors gTapOnLaunchPoint)).
Proof.
  split; [vm_compute; repeat constructor|].
  split; [vm_compute; reflexivity|].
  split; [vm_compute; reflexivity|].
  split; [vm_compute; reflexivity|].
  intros H.
  apply (f_equal (map (fun p => is_nan (Point.x p)))) in H.
  vm_compute in H. discriminate H.
Qed.

(** The middle interceptor of that salvo, by the theorem. *)
Lemma degenerate_kinematics_witness :
  lostPosition
    (Interceptor.pos
       (fst (stepInterceptor
               ([], 0)
               (createInterceptor 1 (Battery.mk 1 500 39 40 true)
                                  500 760 0))))
  = true.
Proof.
  refine (proj1 (proj2 (proj2 degenerate_kinematics _ _ _ _))).
  - reflexivity.
  - vm_compute. repeat split.
Defined.

(** ** Rockets *)

Lemma stepRocket_flag (w : Ground) (r : Rocket.t) :
  flagKept r (fst (stepRocket w r)).
Proof.
  unfold flagKept, stepRocket. destruct (landed (moveRocket r)); cbn; auto.
Qed.

Lemma updateRockets_each (rs : list Rocket.t) :
  forall w,
    Forall2 (fun r r' => exists w', r' = fst (stepRocket w' r))
            rs (fst (updateRockets rs w)).
Proof.
  induction rs as [|r rs IH]; intros w; cbn; [constructor|].
  destruct (stepRocket w r) as [r' w'] eqn:Hstep.
  specialize (IH w'). destruct (updateRockets rs w') as [rs'' w''].
  cbn in *. constructor; [|exact IH].
  exists w. now rewrite Hstep.
Qed.

Lemma blast_flags (i : Interceptor.t) (rs : list Rocket.t) :
  forall sc, Forall2 flagKept rs (fst (blast i rs sc)).
Proof.
  induction rs as [|r rs IH]; intros sc; cbn; [constructor|].
  destruct (caught i r).
  - specialize (IH (sc + 20)). destruct (blast i rs (sc + 20)).
    constructor; [intros _; reflexivity | exact IH].
  - specialize (IH sc). destruct (blast i rs sc).
    constructor; [intros H; exact H | exact IH].
Qed.

Lemma strike_flag (x y : float) (r : Rocket.t) : flagKept r (strike x y r).
Proof. unfold flagKept, strike. destruct (tapped x y r); cbn; auto. Qed.

Lemma terminate_rockets (closedScore : Z) (g : Game) :
  rockets (terminate closedScore g) = rockets g.
Proof.
  unfold terminate, checkRoundEnd, checkGameOver.
  destruct (allDown (batteries g)); [|destruct (_ <=? _)];
    match goal with |- context [fieldSpent ?h] => destruct (fieldSpent h) end;
    reflexivity.
Qed.

Lemma update_pool_live (time last : float) (env : Env) (g : Game) :
  LivePool (snd (update time last env g)).
Proof.
  unfold LivePool. rewrite update_terminate, terminate_rockets.
  unfold afterCleanup, simulate.
  destruct (updateRockets _ _) as [rs1 [cs bs]].
  destruct (updateInterceptors _ _) as [ics1 [rs2 sc]].
  cbn [rockets]. apply Forall_forall. intros r Hr.
  apply filter_In in Hr. destruct Hr as (_ & Hkeep).
  unfold keepRocket in Hkeep. now destruct (Rocket.destroyed r).
Qed.

(** ** The flight of a rocket *)

Lemma add_lower (a b : float) :
  nonneg a = true -> nonneg b = true -> exact a + exact b < 2 ^ 1085 ->
  nonneg (a + b) = true /\ exact a + exact b < exact (a + b) + 2 ^ 1033.
Proof.
  unfold nonneg, exact. rewrite add_spec.
  apply SFadd_lower; apply Prim2SF_valid.
Qed.

Lemma leb_exact (a b : float) :
  nonneg a = true -> nonneg b = true -> exact a <= exact b ->
  (a <=? b)%float = true.
Proof.
  unfold nonneg, exact. rewrite leb_spec.
  apply SFleb_exact; apply Prim2SF_valid.
Qed.

Lemma exact_pos_nonneg (a : float) : 0 < exact a -> nonneg a = true.
Proof.
  unfold nonneg, exact.
  destruct (Prim2SF a) as [s|s| |s m e]; cbn [SFexact SFnonneg];
    try lia; auto.
  destruct s; [|reflexivity]. cbn [cond_Zopp]. intros H. exfalso.
  assert (0 <= 2 ^ (e + 1074)) by (apply Z.pow_nonneg; lia).
  assert (- Z.pos m * 2 ^ (e + 1074) <= 0)
    by (apply Z.mul_nonpos_nonneg; lia).
  lia.
Qed.

Lemma flight_frame (k : nat) (r : Rocket.t) :
  Rocket.start (flight k r) = Rocket.start r
  /\ Rocket.target (flight k r) = Rocket.target r
  /\ Rocket.speed (flight k r) = Rocket.speed r
  /\ Rocket.id (flight k r) = Rocket.id r
  /\ Rocket.destroyed (flight k r) = Rocket.destroyed r.
Proof.
  induction k as [|k IH]; [repeat split|].
  destruct IH as (H1 & H2 & H3 & H4 & H5). cbn [flight].
  unfold moveRocket. cbn. auto.
Qed.

Lemma flight_y (k : nat) (r : Rocket.t) :
  Point.y (Rocket.pos (flight (S k) r))
  = (Point.y (Rocket.pos (flight k r)) + descent r)%float.
Proof.
  destruct (flight_frame k r) as (H1 & H2 & H3 & _).
  cbn [flight]. unfold moveRocket, descent. cbn. now rewrite H1, H2, H3.
Qed.

(** As long as the rocket has not landed it has gained, in each move, its
    displacement less at most [2^-41]. *)
Lemma flight_gain (r : Rocket.t) (k : nat) :
  nonneg (Point.y (Rocket.pos r)) = true ->
  nonneg (Point.y (Rocket.target r)) = true ->
  exact (Point.y (Rocket.pos r)) <= exact (Point.y (Rocket.target r)) ->
  exact (Point.y (Rocket.target r)) < 2 ^ 1084 ->
  0 < exact (descent r) < 2 ^ 1084 ->
  (exists j, (1 <= j <= k)%nat /\ landed (flight j r) = true)
  \/ (nonneg (Point.y (Rocket.pos (flight k r))) = true
      /\ exact (Point.y (Rocket.pos (flight k r)))
         <= exact (Point.y (Rocket.target r))
      /\ exact (Point.y (Rocket.pos r))
         + Z.of_nat k * (exact (descent r) - 2 ^ 1033)
         <= exact (Point.y (Rocket.pos (flight k r)))).
Proof.
  intros Hy0 Ht Hle Htop Hv.
  pose proof (exact_pos_nonneg _ (proj1 Hv)) as Hvn.
  assert (Hdouble : 2 ^ 1085 = 2 * 2 ^ 1084)
    by (change 1085 with (Z.succ 1084); apply Z.pow_succ_r; lia).
  induction k as [|k IH].
  - right. cbn [flight Z.of_nat]. repeat split; auto; lia.
  - destruct IH as [(j & Hj & Hland)|(Hn & Hbelow & Hgain)].
    + left. exists j. split; [lia|assumption].
    + destruct (add_lower (Point.y (Rocket.pos (flight k r))) (descent r)
                  Hn Hvn ltac:(lia)) as [Hn' Hstep].
      rewrite <- flight_y in Hn', Hstep.
      destruct (landed (flight (S k) r)) eqn:Hland.
      * left. exists (S k). split; [lia|assumption].
      * right. split; [assumption|].
        assert (Hlt : exact (Point.y (Rocket.pos (flight (S k) r)))
                      < exact (Point.y (Rocket.target r))).
        { destruct (Z.lt_ge_cases
                      (exact (Point.y (Rocket.pos (flight (S k) r))))
                      (exact (Point.y (Rocket.target r)))) as [|Hge];
            [assumption|].
          unfold landed in Hland.
          destruct (flight_frame (S k) r) as (_ & Htg & _).
          rewrite Htg, (leb_exact _ _ Ht Hn' Hge) in Hland.
          discriminate Hland. }
        split; [lia|]. rewrite Nat2Z.inj_succ. lia.
Qed.

(** A rocket whose moves gain [v] in y lands within [n] moves as soon as
    [(n - 1) * v] covers the height left, the [n] rounding losses of at most
    [2^-41] being covered by the extra move. *)
Lemma flight_lands (r : Rocket.t) (n : nat) :
  nonneg (Point.y (Rocket.pos r)) = true ->
  nonneg (Point.y (Rocket.target r)) = true ->
  exact (Point.y (Rocket.pos r)) <= exact (Point.y (Rocket.target r)) ->
  exact (Point.y (Rocket.target r)) < 2 ^ 1084 ->
  0 < exact (descent r) < 2 ^ 1084 ->
  Z.of_nat n * 2 ^ 1033 <= exact (descent r) ->
  exact (Point.y (Rocket.target r)) - exact (Point.y (Rocket.pos r))
  <= (Z.of_nat n - 1) * exact (descent r) ->
  exists j, (1 <= j <= n)%nat /\ landed (flight j r) = true.
Proof.
  intros Hy0 Ht Hle Htop Hv Hslack Hn.
  assert (Hn1 : (1 <= n)%nat).
  { destruct n as [|n]; [|lia]. cbn [Z.of_nat] in Hn. lia. }
  destruct (flight_gain r n Hy0 Ht Hle Htop Hv)
    as [Hdone|(Hnn & _ & Hgain)]; [assumption|].
  exists n. split; [lia|].
  unfold landed. destruct (flight_frame n r) as (_ & -> & _).
  apply leb_exact; auto.
  set (E := 2 ^ 1033) in *. lia.
Qed.

(** C2, as the code has it.  In a step, a non-destroyed rocket is moved by
    [speed] times the unit vector from its origin to its target, computed in
    binary64 as [(dx / dist * speed, dy / dist * speed)] with
    [dist = sqrt (dx * dx + dy * dy)]; origin, target and speed stay as they
    are, so the displacement is the same in every step.  The rocket is marked
    destroyed, and the impact resolved, exactly when the moved position is at
    or beyond the target's y; otherwise the step returns the moved rocket and
    the ground as it was, so that a rocket in flight after [k] steps is
    [flight k] of the one spawned.  Every
    rocket the step returns is the step of a rocket of the pool.  The
    destroyed flag, once set, stays set through the rocket step, every blast
    and every tap.  After the step no rocket marked destroyed is left in the
    pool, so a rocket resolves its impact at most once.  A rocket at or above
    its target, below y = 1024, whose displacement has y-component
    [v] with [0 < v < 1024], has landed within [n] steps whenever
    [(n - 1) * v] is at least the height left and [n * 2^-41 <= v]: within
    one step more than the height left divided by [v], rounded up, [v] being
    the binary64 number [dy / dist * speed] the code computes.  (Heights and
    [v] are the exact values of the binary64 numbers, in units of
    [2^-1074].) *)
Theorem rocket_kinematics :
  (forall w r,
     Rocket.destroyed r = false ->
     Rocket.pos (fst (stepRocket w r)) = Rocket.pos (flight 1 r)
     /\ (let dx := (Point.x (Rocket.target r) - Point.x (Rocket.start r))%float in
         let dy := (Point.y (Rocket.target r) - Point.y (Rocket.start r))%float in
         let dist := sqrt (dx * dx + dy * dy)%float in
         Rocket.pos (flight 1 r)
         = Point.mk
             (Point.x (Rocket.pos r) + dx / dist * Rocket.speed r)%float
             (Point.y (Rocket.pos r) + dy / dist * Rocket.speed r)%float)
     /\ Rocket.start (fst (stepRocket w r)) = Rocket.start r
     /\ Rocket.target (fst (stepRocket w r)) = Rocket.target r
     /\ Rocket.speed (fst (stepRocket w r)) = Rocket.speed r
     /\ Rocket.destroyed (fst (stepRocket w r)) = landed (flight 1 r)
     /\ (landed (flight 1 r) = false -> stepRocket w r = (flight 1 r, w)))
  /\ (forall rs w,
        Forall2 (fun r r' => exists w', r' = fst (stepRocket w' r))
                rs (fst (updateRockets rs w)))
  /\ (forall w r, flagKept r (fst (stepRocket w r)))
  /\ (forall i rs sc, Forall2 flagKept rs (fst (blast i rs sc)))
  /\ (forall x y r, flagKept r (strike x y r))
  /\ (forall time last env g, LivePool (snd (update time last env g)))
  /\ (forall r n,
        nonneg (Point.y (Rocket.pos r)) = true ->
        nonneg (Point.y (Rocket.target r)) = true ->
        exact (Point.y (Rocket.pos r)) <= exact (Point.y (Rocket.target r)) ->
        exact (Point.y (Rocket.target r)) < 2 ^ 1084 ->
        0 < exact (descent r) < 2 ^ 1084 ->
        Z.of_nat n * 2 ^ 1033 <= exact (descent r) ->
        exact (Point.y (Rocket.target r)) - exact (Point.y (Rocket.pos r))
        <= (Z.of_nat n - 1) * exact (descent r) ->
        exists j, (1 <= j <= n)%nat /\ landed (flight j r) = true).
Proof.
  split; [|split; [|split; [|split; [|split; [|split]]]]].
  - intros w r Hlive. cbn [flight]. unfold stepRocket.
    destruct (landed (moveRocket r)) eqn:Hland; cbn;
      repeat split; auto; discriminate.
  - intros rs w. apply updateRockets_each.
  - intros w r. apply stepRocket_flag.
  - intros i rs sc. apply blast_flags.
  - intros x y r. apply strike_flag.
  - intros time last env g. apply update_pool_live.
  - intros r n. apply flight_lands.
Qed.

(** The rocket 780 units straight above the first structure, at speed 1.3:
    600 * 1.3 covers the height, and the rocket has landed within 601
    steps. *)
Lemma rocket_kinematics_witness :
  exists j, (1 <= j <= 601)%nat /\ landed (flight j rocketFromTop) = true.
Proof.
  refine (proj2 (proj2 (proj2 (proj2 (proj2 (proj2 rocket_kinematics)))))
            rocketFromTop 601%nat _ _ _ _ _ _ _).
  - vm_compute. reflexivity.
  - vm_compute. reflexivity.
  - vm_compute. discriminate.
  - vm_compute. reflexivity.
  - split; vm_compute; reflexivity.
  - vm_compute. discriminate.
  - vm_compute. discriminate.
Defined.

(** At speed 1.3 a rocket 780 units above its target needs, in exact
    arithmetic, no more than 600 steps (600 * 1.3 >= 780, and the quotient
    the machine computes is 600).  After 600 frames it is still in flight
    just short of the target, the structure unharmed; it lands in frame
    601, the step the bound of the theorem allows. *)
Lemma landing_one_step_late :
  distance (Rocket.target rocketFromTop) (Rocket.start rocketFromTop)
  = 780%float
  /\ exactAt (-52) 780 <= 600 * exactAt (-52) (Rocket.speed rocketFromTop)
  /\ (780 / Rocket.speed rocketFromTop <=? 600)%float = true
  /\ (exists r,
        rockets (frames 600 gLateLanding) = [r]
        /\ Rocket.destroyed r = false
        /\ (Point.y (Rocket.pos r) <? Point.y (Rocket.target r))%float = true)
  /\ map City.shields (cities (frames 600 gLateLanding)) = [3; 3; 3; 3; 3; 3]
  /\ rockets (frames 601 gLateLanding) = []
  /\ map City.shields (cities (frames 601 gLateLanding)) = [2; 3; 3; 3; 3; 3]
  /\ descent rocketFromTop = Rocket.speed rocketFromTop
  /\ landed (flight 600 rocketFromTop) = false
  /\ landed (flight 601 rocketFromTop) = true.
Proof.
  split; [vm_compute; reflexivity|].
  split; [vm_compute; discriminate|].
  split; [vm_compute; reflexivity|].
  split.
  - eexists. split; [vm_compute; reflexivity|].
    split; vm_compute; reflexivity.
  - repeat split; vm_compute; reflexivity.
Qed.

(** A rocket the player has tapped stays in the pool until the next cleanup;
    the rocket loop does not look at the flag, so the next frame still moves
    it and, here, lands it: the tap scored 20 and the structure loses a
    shield all the same. *)
Remark tapped_rocket_still_lands :
  Forall (fun r => Rocket.destroyed r = true) (rockets gRocketTapped)
  /\ score gRocketTapped = 20
  /\ map City.shields (cities gRocketTapped) = [3; 3; 3; 3; 3; 3]
  /\ map City.shields (cities (snd (update 16 0 quietEnv gRocketTapped)))
     = [2; 3; 3; 3; 3; 3].
Proof.
  split; [vm_compute; repeat constructor|].
  repeat split; vm_compute; reflexivity.
Qed.

(** ** Explosions *)

(** The cleanup keeps every interceptor of positive radius and every FLYING
    one. *)
Lemma cleanup_keeps (i : Interceptor.t) :
  (0 <? Interceptor.explosionRadius i)%float = true
  \/ Interceptor.state i = FLYING ->
  keepInterceptor i = true.
Proof.
  unfold keepInterceptor. intros [H|H]; rewrite H; auto using orb_true_r.
Qed.

(** An interceptor launched by a battery has radius 0; the step in which it
    reaches its target only switches it to EXPLODING, and the cleanup of that
    same step drops it. *)
Lemma arrival_is_removal (i : Interceptor.t) (st : list Rocket.t * Z) :
  Interceptor.state i = FLYING ->
  (0 <? Interceptor.explosionRadius i)%float = false ->
  Interceptor.state (fly i) = EXPLODING ->
  stepInterceptor st i = (fly i, st)
  /\ Interceptor.explosionRadius (fly i) = Interceptor.explosionRadius i
  /\ Interceptor.explosionTimer (fly i) = Interceptor.explosionTimer i
  /\ keepInterceptor (fly i) = false.
Proof.
  intros Hfly Hzero Harr. unfold stepInterceptor. rewrite Hfly.
  split; [reflexivity|].
  assert (Hr : Interceptor.explosionRadius (fly i)
               = Interceptor.explosionRadius i).
  { unfold fly.
    match goal with |- context [if ?c then _ else _] => destruct c end;
      reflexivity. }
  assert (Ht : Interceptor.explosionTimer (fly i)
               = Interceptor.explosionTimer i).
  { unfold fly.
    match goal with |- context [if ?c then _ else _] => destruct c end;
      reflexivity. }
  repeat split; auto.
  unfold keepInterceptor. now rewrite Hr, Hzero, Harr.
Qed.

(** C9, on the code.  The interceptor of [gShortShot] is FLYING, one step
    from its target, radius 0.  One frame later the pool is empty: the
    interceptor was switched to EXPLODING and removed in the same step, with
    radius 0 and timer 0, without a single tick of growth. *)
Theorem arriving_interceptor_vanishes :
  (exists i,
     interceptors gShortShot = [i]
     /\ Interceptor.state i = FLYING
     /\ Interceptor.explosionRadius i = 0%float
     /\ Interceptor.state (fly i) = EXPLODING
     /\ Interceptor.explosionRadius (fly i) = 0%float
     /\ Interceptor.explosionTimer (fly i) = 0)
  /\ interceptors (snd (update 16 0 quietEnv gShortShot)) = [].
Proof.
  split.
  - eexists. split; [vm_compute; reflexivity|].
    repeat split; vm_compute; reflexivity.
  - vm_compute. reflexivity.
Qed.

(** The explosion a tap leaves (radius 10) does follow the growth and decay:
    ten plus two per tick up to 70 at tick 30, two less per tick after, kept
    by the cleanup until the radius is 0 at tick 65. *)
Remark tap_burst_trace :
  forallb
    (fun k =>
       (Interceptor.explosionRadius (ticks k tapBurst)
        =? (if (k <=? 30)%nat then Z2float (10 + 2 * Z.of_nat k)
            else Z2float (70 - 2 * (Z.of_nat k - 30))))%float
       && Bool.eqb (keepInterceptor (ticks k tapBurst)) (k <? 65)%nat)
    (seq 0 66)
  = true.
Proof. vm_compute. reflexivity. Qed.

(** * The layout never changes *)

Lemma map_mutateAt {A B : Type} (proj : A -> B) (f : A -> A) (l : list A) :
  (forall a, proj (f a) = proj a) ->
  forall n, map proj (mutateAt n f l) = map proj l.
Proof.
  intros Hf. induction l as [|a l IH]; intros [|n]; cbn; auto.
  - now rewrite Hf.
  - now rewrite IH.
Qed.

Lemma map_map_same {A B : Type} (proj : A -> B) (f : A -> A) (l : list A) :
  (forall a, proj (f a) = proj a) -> map proj (map f l) = map proj l.
Proof.
  intros Hf. rewrite map_map. apply map_ext. exact Hf.
Qed.

Lemma hitCity_x (c : City.t) : City.x (hitCity c) = City.x c.
Proof. unfold hitCity. destruct (City.active c); reflexivity. Qed.

Lemma damageCity_x (tx : float) (cs : list City.t) :
  map City.x (damageCity tx cs) = map City.x cs.
Proof.
  unfold damageCity. destruct (findIndex _ cs); [|reflexivity].
  apply map_mutateAt, hitCity_x.
Qed.

Lemma damageBattery_x (tx : float) (bs : list Battery.t) :
  map Battery.x (damageBattery tx bs) = map Battery.x bs.
Proof.
  unfold damageBattery. destruct (findIndex _ bs); [|reflexivity].
  now apply map_mutateAt.
Qed.

Lemma updateRockets_x (rs : list Rocket.t) :
  forall cs bs,
    map City.x (fst (snd (updateRockets rs (cs, bs)))) = map City.x cs
    /\ map Battery.x (snd (snd (updateRockets rs (cs, bs))))
       = map Battery.x bs.
Proof.
  induction rs as [|r rs IH]; intros cs bs; cbn; [auto|].
  unfold stepRocket. destruct (landed (moveRocket r)); cbn [fst snd].
  - match goal with
    | |- context [updateRockets rs (?c, ?b)] =>
        specialize (IH c b); destruct (updateRockets rs (c, b)) as [rs' w']
    end.
    cbn [fst snd] in *. now rewrite (proj1 IH), (proj2 IH),
                            damageCity_x, damageBattery_x.
  - specialize (IH cs bs). destruct (updateRockets rs (cs, bs)) as [rs' w'].
    exact IH.
Qed.

Lemma simulate_abscissas (g : Game) : abscissas (simulate g) = abscissas g.
Proof.
  unfold abscissas, simulate.
  pose proof (updateRockets_x (rockets g) (cities g) (batteries g)) as H.
  destruct (updateRockets _ _) as [rs1 [cs bs]].
  destruct (updateInterceptors _ _) as [ics1 [rs2 sc]].
  cbn in *. now rewrite (proj1 H), (proj2 H).
Qed.

Lemma terminate_abscissas (closedScore : Z) (g : Game) :
  abscissas (terminate closedScore g) = abscissas g.
Proof.
  unfold terminate, checkRoundEnd, checkGameOver.
  destruct (allDown (batteries g)); [|destruct (_ <=? _)];
    match goal with |- context [fieldSpent ?h] => destruct (fieldSpent h) end;
    reflexivity.
Qed.

Lemma spawnPhase_abscissas (time last : float) (env : Env) (g : Game) :
  abscissas (snd (spawnPhase time last env g)) = abscissas g.
Proof.
  unfold spawnPhase, spawnRocket.
  destruct (_ <? _)%float; [|reflexivity]. cbn [snd].
  destruct (Nat.eqb _ _); [reflexivity|].
  destruct (nth_error _ _); reflexivity.
Qed.

Lemma update_abscissas (time last : float) (env : Env) (g : Game) :
  abscissas (snd (update time last env g)) = abscissas g.
Proof.
  rewrite update_terminate, terminate_abscissas. unfold afterCleanup.
  now rewrite simulate_abscissas, spawnPhase_abscissas.
Qed.

Lemma fireInterceptor_abscissas (fresh : nat -> float) (x y : float)
    (g : Game) :
  abscissas (fireInterceptor fresh x y g) = abscissas g.
Proof.
  unfold fireInterceptor, abscissas.
  destruct (gameState g); try reflexivity.
  destruct (closestBattery x (batteries g)) as [[n b]|]; [|reflexivity].
  cbn [cities batteries]. now rewrite map_mutateAt.
Qed.

Lemma handleCanvasClick_abscissas (fresh : nat -> float) (x y : float)
    (g : Game) :
  abscissas (handleCanvasClick fresh x y g) = abscissas g.
Proof.
  unfold handleCanvasClick.
  destruct (gameState g) eqn:Hs; try reflexivity.
  destruct (directHits _ _ _ _ _) as [rs t].
  destruct (directHit t); [reflexivity|].
  now rewrite fireInterceptor_abscissas.
Qed.

(** The abscissas of every reachable component are those of the opening
    layout. *)
Lemma reachable_abscissas (g : Game) :
  Reachable g -> abscissas g = abscissas mounted.
Proof.
  induction 1 as [|g _ IH|g _ IH|g _ IH|g _ IH|g _ IH|g _ IH
                  |fresh x y g _ IH|time last env g _ IH];
    try rewrite <- IH.
  - reflexivity.
  - unfold abscissas, resetGame. cbn [cities batteries].
    now rewrite !map_map_same.
  - unfold abscissas, nextRound. cbn [cities batteries].
    now rewrite !map_map_same.
  - unfold abscissas, nextLevel. destruct (_ <=? _); cbn [cities batteries];
      [reflexivity | now rewrite !map_map_same].
  - unfold abscissas, replayPreviousLevel. cbn [cities batteries].
    now rewrite !map_map_same.
  - unfold abscissas, exitToMenu. cbn [cities batteries].
    now rewrite !map_map_same.
  - unfold togglePause. destruct (gameState g); reflexivity.
  - apply handleCanvasClick_abscissas.
  - apply update_abscissas.
Qed.

Lemma nth_error_same_x {A : Type} (proj : A -> float) (l l' : list A)
    (n : nat) (a' : A) :
  map proj l' = map proj l -> nth_error l' n = Some a' ->
  exists a, nth_error l n = Some a /\ proj a = proj a'.
Proof.
  intros Hmap Hn.
  pose proof (map_nth_error proj _ _ Hn) as H. rewrite Hmap in H.
  rewrite nth_error_map in H.
  destruct (nth_error l n) as [a|]; [|discriminate].
  exists a. split; [reflexivity|]. now inversion H.
Qed.

Lemma DisjointLayout_abscissas (cs cs' : list City.t)
    (bs bs' : list Battery.t) :
  map City.x cs' = map City.x cs -> map Battery.x bs' = map Battery.x bs ->
  DisjointLayout cs bs -> DisjointLayout cs' bs'.
Proof.
  intros Hcs Hbs (Hc & Hb & Hcross). repeat split.
  - intros i j c c' Hi Hj Heq.
    destruct (nth_error_same_x _ _ _ _ _ Hcs Hi) as (c0 & Hi0 & Hx0).
    destruct (nth_error_same_x _ _ _ _ _ Hcs Hj) as (c1 & Hj0 & Hx1).
    apply (Hc i j c0 c1 Hi0 Hj0). now rewrite Hx0, Hx1.
  - intros i j b b' Hi Hj Heq.
    destruct (nth_error_same_x _ _ _ _ _ Hbs Hi) as (b0 & Hi0 & Hx0).
    destruct (nth_error_same_x _ _ _ _ _ Hbs Hj) as (b1 & Hj0 & Hx1).
    apply (Hb i j b0 b1 Hi0 Hj0). now rewrite Hx0, Hx1.
  - intros c b Hc' Hb'.
    apply In_nth_error in Hc'. destruct Hc' as [i Hi].
    apply In_nth_error in Hb'. destruct Hb' as [j Hj].
    destruct (nth_error_same_x _ _ _ _ _ Hcs Hi) as (c0 & Hi0 & Hx0).
    destruct (nth_error_same_x _ _ _ _ _ Hbs Hj) as (b0 & Hj0 & Hx1).
    rewrite <- Hx0, <- Hx1.
    apply Hcross; eapply nth_error_In; eassumption.
Qed.

(** Every reachable component has a disjoint layout: the hypothesis of the
    impact theorem holds wherever the program can be. *)
Lemma reachable_layout (g : Game) :
  Reachable g -> DisjointLayout (cities g) (batteries g).
Proof.
  intros Hg. pose proof (reachable_abscissas g Hg) as H.
  unfold abscissas in H. inversion H as [[Hcs Hbs]].
  apply (DisjointLayout_abscissas initialCities _ initialBatteries _ Hcs Hbs).
  apply initial_layout_disjoint.
Qed.

(** * The whole component: what no operation changes *)

Lemma updateRockets_keeps {B C : Type} (pc : City.t -> B)
    (pb : Battery.t -> C) :
  (forall c, pc (hitCity c) = pc c) ->
  (forall b, pb (knockOut b) = pb b) ->
  forall rs cs bs,
    map pc (fst (snd (updateRockets rs (cs, bs)))) = map pc cs
    /\ map pb (snd (snd (updateRockets rs (cs, bs)))) = map pb bs.
Proof.
  intros Hc Hb. induction rs as [|r rs IH]; intros cs bs; cbn; [auto|].
  unfold stepRocket. destruct (landed (moveRocket r)); cbn [fst snd].
  - match goal with
    | |- context [updateRockets rs (?c, ?b)] =>
        specialize (IH c b); destruct (updateRockets rs (c, b)) as [rs' w']
    end.
    cbn [fst snd] in *. rewrite (proj1 IH), (proj2 IH).
    unfold damageCity, damageBattery. split.
    + destruct (findIndex _ cs); [now apply map_mutateAt | reflexivity].
    + destruct (findIndex _ bs); [now apply map_mutateAt | reflexivity].
  - specialize (IH cs bs). destruct (updateRockets rs (cs, bs)) as [rs' w'].
    exact IH.
Qed.

Lemma hitCity_identity (c : City.t) : cityIdentity (hitCity c) = cityIdentity c.
Proof. unfold hitCity. destruct (City.active c); reflexivity. Qed.

Lemma terminate_ground (closedScore : Z) (g : Game) :
  cities (terminate closedScore g) = cities g
  /\ batteries (terminate closedScore g) = batteries g
  /\ level (terminate closedScore g) = level g
  /\ round (terminate closedScore g) = round g
  /\ interceptors (terminate closedScore g) = interceptors g.
Proof.
  unfold terminate, checkRoundEnd, checkGameOver.
  destruct (allDown (batteries g)); [|destruct (_ <=? _)];
    match goal with |- context [fieldSpent ?h] => destruct (fieldSpent h) end;
    repeat split.
Qed.

Lemma spawnPhase_ground (time last : float) (env : Env) (g : Game) :
  cities (snd (spawnPhase time last env g)) = cities g
  /\ batteries (snd (spawnPhase time last env g)) = batteries g
  /\ level (snd (spawnPhase time last env g)) = level g
  /\ round (snd (spawnPhase time last env g)) = round g
  /\ interceptors (snd (spawnPhase time last env g)) = interceptors g
  /\ score (snd (spawnPhase time last env g)) = score g
  /\ gameState (snd (spawnPhase time last env g)) = gameState g.
Proof.
  unfold spawnPhase, spawnRocket.
  destruct (_ <? _)%float; [|repeat split]. cbn [snd].
  destruct (Nat.eqb _ _); [repeat split|].
  destruct (nth_error _ _); repeat split.
Qed.

Lemma simulate_round (g : Game) : round (simulate g) = round g.
Proof.
  unfold simulate.
  destruct (updateRockets _ _) as [rs1 [cs bs]].
  destruct (updateInterceptors _ _) as [ics1 [rs2 sc]]. reflexivity.
Qed.

Lemma simulate_ground (g : Game) :
  cities (simulate g) = fst (snd (updateRockets (rockets g)
                                                (cities g, batteries g)))
  /\ batteries (simulate g)
     = snd (snd (updateRockets (rockets g) (cities g, batteries g))).
Proof.
  unfold simulate.
  destruct (updateRockets _ _) as [rs1 [cs bs]].
  destruct (updateInterceptors _ _) as [ics1 [rs2 sc]]. split; reflexivity.
Qed.

Lemma update_ground (time last : float) (env : Env) (g : Game) :
  cities (snd (update time last env g))
  = fst (snd (updateRockets (rockets (snd (spawnPhase time last env g)))
                            (cities g, batteries g)))
  /\ batteries (snd (update time last env g))
     = snd (snd (updateRockets (rockets (snd (spawnPhase time last env g)))
                               (cities g, batteries g))).
Proof.
  rewrite update_terminate. unfold afterCleanup.
  destruct (terminate_ground (score g)
              (simulate (snd (spawnPhase time last env g))))
    as (-> & -> & _).
  destruct (simulate_ground (snd (spawnPhase time last env g))) as (-> & ->).
  destruct (spawnPhase_ground time last env g) as (-> & -> & _).
  split; reflexivity.
Qed.

Lemma update_identity (time last : float) (env : Env) (g : Game) :
  identity (snd (update time last env g)) = identity g.
Proof.
  unfold identity. destruct (update_ground time last env g) as (-> & ->).
  destruct (updateRockets_keeps cityIdentity batteryIdentity
              hitCity_identity (fun b => eq_refl)
              (rockets (snd (spawnPhase time last env g)))
              (cities g) (batteries g)) as (-> & ->).
  reflexivity.
Qed.

Lemma tap_ground (fresh : nat -> float) (x y : float) (g : Game) :
  cities (handleCanvasClick fresh x y g) = cities g
  /\ level (handleCanvasClick fresh x y g) = level g
  /\ round (handleCanvasClick fresh x y g) = round g
  /\ gameState (handleCanvasClick fresh x y g) = gameState g
  /\ (batteries (handleCanvasClick fresh x y g) = batteries g
      \/ exists n b,
           gameState g = PLAYING
           /\ existsb (tapped x y) (rockets g) = false
           /\ closestBattery x (batteries g) = Some (n, b)
           /\ batteries (handleCanvasClick fresh x y g)
              = mutateAt n spend (batteries g)).
Proof.
  unfold handleCanvasClick.
  destruct (gameState g) eqn:Hs;
    try (repeat split; solve [auto | left; auto]).
  rewrite directHits_spec. cbn [directHit tapScore tapPool orb].
  destruct (existsb (tapped x y) (rockets g)) eqn:Hhit;
    [repeat split; solve [auto | left; auto]|].
  unfold fireInterceptor. cbn [gameState batteries].
  destruct (closestBattery x (batteries g)) as [[n b]|] eqn:Hsel;
    cbn [cities level round gameState batteries];
    repeat split; auto.
  right. exists n, b. auto.
Qed.

Lemma tap_identity (fresh : nat -> float) (x y : float) (g : Game) :
  identity (handleCanvasClick fresh x y g) = identity g.
Proof.
  unfold identity.
  destruct (tap_ground fresh x y g) as (-> & _ & _ & _ & [->|H]);
    [reflexivity|].
  destruct H as (n & b & _ & _ & _ & ->). now rewrite map_mutateAt.
Qed.

Lemma progression_identity (g : Game) :
  identity (resetGame g) = identity g
  /\ identity (nextRound g) = identity g
  /\ identity (nextLevel g) = identity g
  /\ identity (replayPreviousLevel g) = identity g
  /\ identity (exitToMenu g) = identity g
  /\ identity (togglePause g) = identity g.
Proof.
  unfold identity, resetGame, nextRound, nextLevel, replayPreviousLevel,
    exitToMenu, togglePause.
  repeat split; cbn [cities batteries];
    try (now rewrite ?map_map_same).
  - destruct (_ <=? _); cbn [cities batteries];
      [reflexivity | now rewrite map_map_same].
  - destruct (gameState g); reflexivity.
Qed.

Lemma reachable_identity (g : Game) :
  Reachable g -> identity g = identity mounted.
Proof.
  induction 1 as [|g _ IH|g _ IH|g _ IH|g _ IH|g _ IH|g _ IH
                  |fresh x y g _ IH|time last env g _ IH];
    try rewrite <- IH; try reflexivity;
    try apply (progression_identity g).
  - apply tap_identity.
  - apply update_identity.
Qed.

Lemma resetGame_by_identity (g g' : Game) :
  identity g = identity g' -> resetGame g = resetGame g'.
Proof.
  unfold identity, resetGame. intros H. inversion H as [[Hc Hb]].
  f_equal.
  - transitivity (map (fun p => City.mk (fst p) (snd p) true 3)
                      (map cityIdentity (cities g))).
    + rewrite map_map. apply map_ext. now intros [].
    + rewrite Hc, map_map. apply map_ext. now intros [].
  - transitivity (map (fun p => Battery.mk (fst (fst p)) (snd (fst p))
                                           (snd p) (snd p) true)
                      (map batteryIdentity (batteries g))).
    + rewrite map_map. apply map_ext. now intros [].
    + rewrite Hb, map_map. apply map_ext. now intros [].
Qed.

(** X1.  Whatever the player did before (frames, taps, rounds, levels,
    replays, pauses, exits), starting the game again gives the opening game:
    PLAYING, score 0, level 1, round 1, empty pools, six structures with three
    shields, batteries with 20, 40 and 20 missiles. *)
Theorem reset_restores_opening (g : Game) :
  Reachable g -> resetGame g = opening.
Proof.
  intros Hg.
  rewrite (resetGame_by_identity g mounted (reachable_identity g Hg)).
  reflexivity.
Qed.

(** A fresh game played for a frame, tapped, and taken to the next level. *)
Lemma reset_restores_opening_witness :
  resetGame
    (nextLevel
       (handleCanvasClick (freshId quietEnv) 480 300
          (snd (update 2000 0 quietEnv (resetGame mounted)))))
  = opening.
Proof.
  apply reset_restores_opening.
  apply reach_level, reach_tap, reach_frame, reach_reset, reach_mounted.
Defined.

(** X2.  No operation of the component ever changes the id or the x-position
    of a structure, nor the id, the x-position or the maximum ammunition of a
    battery, nor the number or the order of either row. *)
Theorem operations_keep_identity (g : Game) :
  identity (resetGame g) = identity g
  /\ identity (nextRound g) = identity g
  /\ identity (nextLevel g) = identity g
  /\ identity (replayPreviousLevel g) = identity g
  /\ identity (exitToMenu g) = identity g
  /\ identity (togglePause g) = identity g
  /\ (forall fresh x y, identity (handleCanvasClick fresh x y g) = identity g)
  /\ (forall fresh x y, identity (fireInterceptor fresh x y g) = identity g)
  /\ (forall env, identity (spawnRocket env g) = identity g)
  /\ (forall time last env,
        identity (snd (update time last env g)) = identity g).
Proof.
  destruct (progression_identity g) as (H1 & H2 & H3 & H4 & H5 & H6).
  repeat split; auto using tap_identity, update_identity.
  - intros fresh x y. unfold identity, fireInterceptor.
    destruct (gameState g); try reflexivity.
    destruct (closestBattery x (batteries g)) as [[n b]|]; [|reflexivity].
    cbn [cities batteries]. now rewrite map_mutateAt.
  - intros env. unfold identity, spawnRocket.
    destruct (Nat.eqb _ _); [reflexivity|].
    destruct (nth_error _ _); reflexivity.
Qed.

(** * The whole component: bounds and progression *)

Lemma Forall_mutateAt {A : Type} (P : A -> Prop) (f : A -> A) (l : list A) :
  forall n,
    Forall P l ->
    (forall a, nth_error l n = Some a -> P a -> P (f a)) ->
    Forall P (mutateAt n f l).
Proof.
  induction l as [|a l IH]; intros [|n] Hl Hf; cbn; auto;
    inversion Hl; subst; constructor; auto.
Qed.

Lemma Forall_same_map {A B : Type} (p : A -> B) (Q : B -> Prop)
    (l l' : list A) :
  map p l' = map p l ->
  Forall (fun a => Q (p a)) l -> Forall (fun a => Q (p a)) l'.
Proof.
  revert l'. induction l as [|a l IH]; intros [|a' l'] Hmap Hl;
    cbn in Hmap; try discriminate; constructor; inversion Hmap;
    inversion Hl; subst.
  - congruence.
  - now apply IH.
Qed.

Lemma refill_in_bounds (bs : list Battery.t) :
  Forall (fun b => 0 <= Battery.missiles b <= Battery.maxMissiles b) bs ->
  Forall (fun b => 0 <= Battery.missiles b <= Battery.maxMissiles b)
         (map refill bs).
Proof.
  intros H. apply Forall_map. apply (Forall_impl _ (P := fun b =>
    0 <= Battery.missiles b <= Battery.maxMissiles b)); [|exact H].
  intros b Hb. cbn. lia.
Qed.

Lemma tap_in_bounds (fresh : nat -> float) (x y : float) (g : Game) :
  InBounds g -> InBounds (handleCanvasClick fresh x y g).
Proof.
  intros (Hl & Hr & Hb). unfold InBounds.
  destruct (tap_ground fresh x y g) as (_ & -> & -> & _ & Hbat).
  repeat split; try lia.
  destruct Hbat as [->|(n & b & _ & _ & Hsel & ->)]; [exact Hb|].
  destruct (closestBattery_Some x _ _ _ Hsel) as (Hn & Hammo & _).
  apply Forall_mutateAt; [exact Hb|].
  intros a Ha Hbounds. rewrite Hn in Ha. inversion Ha; subst a.
  unfold hasAmmo in Hammo. apply andb_true_iff in Hammo.
  destruct Hammo as (_ & Hpos). apply Z.ltb_lt in Hpos. cbn. lia.
Qed.

Lemma update_in_bounds (time last : float) (env : Env) (g : Game) :
  InBounds g -> InBounds (snd (update time last env g)).
Proof.
  intros (Hl & Hr & Hb). unfold InBounds.
  destruct (update_ground time last env g) as (_ & ->).
  rewrite update_terminate.
  destruct (terminate_ground (score g) (afterCleanup time last env g))
    as (_ & _ & -> & -> & _).
  rewrite afterCleanup_level. unfold afterCleanup. rewrite simulate_round.
  destruct (spawnPhase_ground time last env g) as (_ & _ & _ & -> & _).
  repeat split; try lia.
  apply (Forall_same_map
           (fun b => (Battery.missiles b, Battery.maxMissiles b))
           (fun p => 0 <= fst p <= snd p) (batteries g)); [|exact Hb].
  apply (updateRockets_keeps cityIdentity
           (fun b => (Battery.missiles b, Battery.maxMissiles b))
           hitCity_identity (fun b => eq_refl)).
Qed.

Lemma mounted_in_bounds : InBounds mounted.
Proof.
  unfold InBounds, mounted, MAX_LEVELS. cbn.
  repeat split; try lia. repeat constructor; cbn; lia.
Qed.

(** X3.  In every component the program can reach the level stays between 1
    and [MAX_LEVELS] (10), the round counter is at least 1, and every battery
    holds between 0 and its maximum of missiles: ammunition never goes
    negative and no refill overfills. *)
Theorem reachable_in_bounds (g : Game) : Reachable g -> InBounds g.
Proof.
  induction 1 as [|g _ IH|g _ IH|g _ IH|g _ IH|g _ IH|g _ IH
                  |fresh x y g _ IH|time last env g _ IH].
  - apply mounted_in_bounds.
  - destruct IH as (Hl & Hr & Hb). unfold InBounds, resetGame, MAX_LEVELS.
    cbn. repeat split; try lia. now apply refill_in_bounds.
  - destruct IH as (Hl & Hr & Hb). unfold InBounds, nextRound. cbn.
    repeat split; try lia. now apply refill_in_bounds.
  - destruct IH as (Hl & Hr & Hb). unfold InBounds, nextLevel.
    destruct (Z.leb_spec MAX_LEVELS (level g)); cbn;
      repeat split; try lia; auto using refill_in_bounds.
  - destruct IH as (Hl & Hr & Hb). unfold InBounds, replayPreviousLevel.
    cbn. repeat split; try lia. now apply refill_in_bounds.
  - destruct IH as (Hl & Hr & Hb). unfold InBounds, exitToMenu. cbn.
    repeat split; try lia. now apply refill_in_bounds.
  - destruct IH as (Hl & Hr & Hb). unfold InBounds, togglePause.
    destruct (gameState g); cbn; repeat split; auto; lia.
  - now apply tap_in_bounds.
  - now apply update_in_bounds.
Qed.

(** After a tap on the fresh game, a frame and nine level changes. *)
Lemma reachable_in_bounds_witness :
  InBounds
    (Nat.iter 9 nextLevel
       (snd (update 2000 0 quietEnv
               (handleCanvasClick (freshId quietEnv) 480 300
                                  (resetGame mounted))))).
Proof.
  apply reachable_in_bounds. cbn [Nat.iter nat_rect].
  do 9 apply reach_level.
  apply reach_frame, reach_tap, reach_reset, reach_mounted.
Defined.

(** X4.  Pausing twice gives back the very same component; one toggle turns
    PLAYING into PAUSED and back, does nothing in any other session state,
    and never touches score, counters, pools, structures or batteries. *)
Theorem pause_round_trip (g : Game) :
  togglePause (togglePause g) = g
  /\ (gameState g = PLAYING -> gameState (togglePause g) = PAUSED)
  /\ (gameState g = PAUSED -> gameState (togglePause g) = PLAYING)
  /\ (gameState g <> PLAYING -> gameState g <> PAUSED -> togglePause g = g)
  /\ score (togglePause g) = score g
  /\ level (togglePause g) = level g
  /\ round (togglePause g) = round g
  /\ rockets (togglePause g) = rockets g
  /\ interceptors (togglePause g) = interceptors g
  /\ cities (togglePause g) = cities g
  /\ batteries (togglePause g) = batteries g.
Proof.
  destruct g as [s sc l r rs ics cs bs]. unfold togglePause.
  destruct s; cbn; repeat split; auto; intros; congruence.
Qed.

(** A game in play is PAUSED by one toggle. *)
Lemma pause_round_trip_witness :
  gameState (togglePause gOneRocket) = PAUSED.
Proof.
  apply (proj1 (proj2 (pause_round_trip gOneRocket))). reflexivity.
Defined.

(** X5.  Replaying the previous level from level [l >= 1] restarts at level
    [max 1 (l - 1)], never below 1 and never above [l], round 1, with the
    score set to the goal of the level before, so that the level goal is not
    yet reached; the pools are emptied, batteries refilled, and every
    structure is reactivated with the shields it had left, not with three.
    A structure reactivated with at most one shield is therefore inactive
    again after a single impact. *)
Theorem replay_restart (g : Game) :
  1 <= level g ->
  1 <= level (replayPreviousLevel g) <= level g
  /\ level (replayPreviousLevel g) = Z.max 1 (level g - 1)
  /\ round (replayPreviousLevel g) = 1
  /\ score (replayPreviousLevel g)
     = (level (replayPreviousLevel g) - 1) * WIN_SCORE_PER_LEVEL
  /\ ~ GoalReached (score (replayPreviousLevel g)) (replayPreviousLevel g)
  /\ gameState (replayPreviousLevel g) = PLAYING
  /\ rockets (replayPreviousLevel g) = []
  /\ interceptors (replayPreviousLevel g) = []
  /\ Forall2 (fun c c' =>
                City.active c' = true
                /\ City.shields c' = City.shields c
                /\ City.id c' = City.id c
                /\ City.x c' = City.x c
                /\ (City.shields c <= 1 -> City.active (hitCity c') = false))
             (cities g) (cities (replayPreviousLevel g))
  /\ Forall2 Refilled (batteries g) (batteries (replayPreviousLevel g)).
Proof.
  intros Hl. unfold replayPreviousLevel, GoalReached, WIN_SCORE_PER_LEVEL.
  cbn [level round score gameState rockets interceptors cities batteries].
  repeat split; try lia; auto using Forall2_refill.
  induction (cities g) as [|c cs IH]; cbn; constructor; auto.
  repeat split. intros Hs. unfold hitCity. cbn.
  destruct (Z.leb_spec (City.shields c - 1) 0); [reflexivity | lia].
Qed.

(** Replay from level 1 stays at level 1 with score 0. *)
Lemma replay_restart_witness :
  level (replayPreviousLevel (mkGame ROUND_END 450 1 3 [] []
                                     initialCities initialBatteries)) = 1
  /\ score (replayPreviousLevel (mkGame ROUND_END 450 1 3 [] []
                                        initialCities initialBatteries)) = 0.
Proof.
  pose proof (replay_restart (mkGame ROUND_END 450 1 3 [] []
                                     initialCities initialBatteries))
    as H.
  split.
  - refine (proj1 (proj2 (H _))). cbn. lia.
  - refine (proj1 (proj2 (proj2 (proj2 (H _))))). cbn. lia.
Defined.

(** X6.  An active structure with [s >= 1] shields stays active through its
    first [s - 1] impacts, losing one shield each time; the [s]-th impact
    leaves it inactive with 0 shields, and every later impact changes
    nothing.  Its id and position are never touched. *)
Theorem shields_absorb (c : City.t) (k : nat) :
  City.active c = true ->
  1 <= City.shields c ->
  (Z.of_nat k < City.shields c ->
     City.active (impacts k c) = true
     /\ City.shields (impacts k c) = City.shields c - Z.of_nat k)
  /\ (City.shields c <= Z.of_nat k ->
        City.active (impacts k c) = false
        /\ City.shields (impacts k c) = 0)
  /\ City.id (impacts k c) = City.id c
  /\ City.x (impacts k c) = City.x c.
Proof.
  intros Hact Hs. induction k as [|k IH].
  - cbn. repeat split; auto; lia.
  - destruct IH as (Hlt & Hge & Hid & Hx). cbn [impacts].
    destruct (Z.lt_ge_cases (Z.of_nat k) (City.shields c)) as [Hk|Hk].
    + destruct (Hlt Hk) as (Ha & Hsh). unfold hitCity. rewrite Ha.
      cbn [City.active City.shields City.id City.x].
      rewrite Hsh, Hid, Hx, Nat2Z.inj_succ.
      destruct (Z.leb_spec (City.shields c - Z.of_nat k - 1) 0);
        repeat split; auto; intros; lia.
    + destruct (Hge Hk) as (Ha & Hsh). unfold hitCity. rewrite Ha.
      rewrite Nat2Z.inj_succ. repeat split; auto; intros; lia.
Qed.

(** The first structure of the opening layout: three shields, active after
    two impacts, inactive after three. *)
Lemma shields_absorb_witness :
  (City.active (impacts 2 (City.mk 1 200 true 3)) = true
   /\ City.shields (impacts 2 (City.mk 1 200 true 3)) = 3 - Z.of_nat 2)
  /\ (City.active (impacts 3 (City.mk 1 200 true 3)) = false
      /\ City.shields (impacts 3 (City.mk 1 200 true 3)) = 0).
Proof.
  split.
  - refine (proj1 (shields_absorb (City.mk 1 200 true 3) 2 _ _) _);
      cbn; (reflexivity || lia).
  - refine (proj1 (proj2 (shields_absorb (City.mk 1 200 true 3) 3 _ _)) _);
      cbn; (reflexivity || lia).
Defined.

(** * The whole component: what a frame does and never does *)

Section Rows.

Context {A : Type} (R : A -> A -> Prop).
Hypothesis R_refl : forall a, R a a.
Hypothesis R_trans : forall a b c, R a b -> R b c -> R a c.

Lemma Forall2_same (l : list A) : Forall2 R l l.
Proof. induction l; constructor; auto. Qed.

Lemma Forall2_chain (l1 l2 l3 : list A) :
  Forall2 R l1 l2 -> Forall2 R l2 l3 -> Forall2 R l1 l3.
Proof.
  intros H12. revert l3. induction H12; intros l3 H23;
    inversion H23; subst; constructor; eauto.
Qed.

Lemma Forall2_mutateAt (f : A -> A) (l : list A) :
  (forall a, R a (f a)) -> forall n, Forall2 R l (mutateAt n f l).
Proof.
  intros Hf. induction l as [|a l IH]; intros [|n]; cbn;
    constructor; auto using Forall2_same.
Qed.

End Rows.

Lemma Worn_refl (c : City.t) : Worn c c.
Proof. unfold Worn. repeat split; auto; lia. Qed.

Lemma Worn_trans (a b c : City.t) : Worn a b -> Worn b c -> Worn a c.
Proof.
  unfold Worn. intros (Hi1 & Hx1 & Hs1 & Ha1 & Hd1) (Hi2 & Hx2 & Hs2 & Ha2 & Hd2).
  repeat split; try congruence; try lia; auto.
  intros Hdead. rewrite (Hd2 ltac:(rewrite (Hd1 Hdead); exact Hdead)).
  auto.
Qed.

Lemma hitCity_Worn (c : City.t) : Worn c (hitCity c).
Proof.
  unfold Worn, hitCity. destruct (City.active c) eqn:Ha; cbn;
    repeat split; auto; try lia; intros; congruence.
Qed.

Lemma Exposed_refl (b : Battery.t) : Exposed b b.
Proof. unfold Exposed. repeat split; auto. Qed.

Lemma Exposed_trans (a b c : Battery.t) :
  Exposed a b -> Exposed b c -> Exposed a c.
Proof.
  unfold Exposed. intros (? & ? & ? & ? & ?) (? & ? & ? & ? & ?).
  repeat split; try congruence; auto.
Qed.

Lemma knockOut_Exposed (b : Battery.t) : Exposed b (knockOut b).
Proof. unfold Exposed. cbn. repeat split; auto. discriminate. Qed.

Lemma updateRockets_wear (rs : list Rocket.t) :
  forall cs bs,
    Forall2 Worn cs (fst (snd (updateRockets rs (cs, bs))))
    /\ Forall2 Exposed bs (snd (snd (updateRockets rs (cs, bs)))).
Proof.
  induction rs as [|r rs IH]; intros cs bs; cbn.
  - split; [apply (Forall2_same _ Worn_refl)
           | apply (Forall2_same _ Exposed_refl)].
  - unfold stepRocket. destruct (landed (moveRocket r)); cbn [fst snd].
    + match goal with
      | |- context [updateRockets rs (?c, ?b)] =>
          specialize (IH c b); destruct (updateRockets rs (c, b)) as [rs' w']
      end.
      cbn [fst snd] in *. destruct IH as (IHc & IHb). split.
      * refine (Forall2_chain _ Worn_trans _ _ _ _ IHc).
        unfold damageCity. destruct (findIndex _ cs);
          [apply (Forall2_mutateAt _ Worn_refl), hitCity_Worn
          | apply (Forall2_same _ Worn_refl)].
      * refine (Forall2_chain _ Exposed_trans _ _ _ _ IHb).
        unfold damageBattery. destruct (findIndex _ bs);
          [apply (Forall2_mutateAt _ Exposed_refl), knockOut_Exposed
          | apply (Forall2_same _ Exposed_refl)].
    + specialize (IH cs bs). destruct (updateRockets rs (cs, bs)) as [rs' w'].
      exact IH.
Qed.

(** X7.  A frame only wears the ground down.  Structure by structure:
    shields never rise, an inactive structure is left exactly as it was and
    never comes back, id and position stay.  Battery by battery: an inactive
    battery never comes back, and ammunition, maximum, id and position stay:
    a frame neither spends nor refills missiles. *)
Theorem frame_only_wears (time last : float) (env : Env) (g : Game) :
  Forall2 Worn (cities g) (cities (snd (update time last env g)))
  /\ Forall2 Exposed (batteries g) (batteries (snd (update time last env g))).
Proof.
  destruct (update_ground time last env g) as (-> & ->).
  apply updateRockets_wear.
Qed.

Lemma updateRockets_length (rs : list Rocket.t) :
  forall w, length (fst (updateRockets rs w)) = length rs.
Proof.
  induction rs as [|r rs IH]; intros w; cbn; [reflexivity|].
  destruct (stepRocket w r) as [r' w'].
  specialize (IH w'). destruct (updateRockets rs w') as [rs'' w''].
  cbn in *. now rewrite IH.
Qed.

Lemma blast_credit (i : Interceptor.t) (rs : list Rocket.t) :
  forall sc,
    snd (blast i rs sc)
    = sc + 20 * (destroyedCount (fst (blast i rs sc)) - destroyedCount rs)
    /\ Forall2 sameFlight rs (fst (blast i rs sc))
    /\ Forall2 flagKept rs (fst (blast i rs sc)).
Proof.
  unfold destroyedCount.
  induction rs as [|r rs IH]; intros sc; cbn [blast].
  - cbn. repeat split; try constructor. lia.
  - destruct (caught i r) eqn:Hc.
    + specialize (IH (sc + 20)). destruct (blast i rs (sc + 20)) as [rs' sc'].
      cbn [fst snd] in *. destruct IH as (-> & Hsame & Hflag).
      unfold caught in Hc. apply andb_true_iff in Hc. destruct Hc as (Hlive & _).
      apply negb_true_iff in Hlive.
      cbn [filter Rocket.destroyed Rocket.set_destroyed]. rewrite Hlive.
      cbn [length]. repeat split; try (constructor; auto).
      * lia.
      * repeat split.
      * intros _. reflexivity.
    + specialize (IH sc). destruct (blast i rs sc) as [rs' sc'].
      cbn [fst snd] in *. destruct IH as (-> & Hsame & Hflag).
      cbn [filter]. repeat split; try (constructor; auto).
      * destruct (Rocket.destroyed r); cbn [length]; lia.
      * repeat split.
      * intros H; exact H.
Qed.

Lemma sameFlight_refl (r : Rocket.t) : sameFlight r r.
Proof. repeat split. Qed.

Lemma sameFlight_trans (a b c : Rocket.t) :
  sameFlight a b -> sameFlight b c -> sameFlight a c.
Proof.
  unfold sameFlight. intros (? & ? & ? & ? & ?) (? & ? & ? & ? & ?).
  repeat split; congruence.
Qed.

Lemma flagKept_refl (r : Rocket.t) : flagKept r r.
Proof. intros H; exact H. Qed.

Lemma flagKept_trans (a b c : Rocket.t) :
  flagKept a b -> flagKept b c -> flagKept a c.
Proof. unfold flagKept. auto. Qed.

Lemma updateInterceptors_credit (ics : list Interceptor.t) :
  forall rs sc,
    snd (snd (updateInterceptors ics (rs, sc)))
    = sc + 20 * (destroyedCount (fst (snd (updateInterceptors ics (rs, sc))))
                 - destroyedCount rs)
    /\ Forall2 sameFlight rs (fst (snd (updateInterceptors ics (rs, sc))))
    /\ Forall2 flagKept rs (fst (snd (updateInterceptors ics (rs, sc))))
    /\ length (fst (updateInterceptors ics (rs, sc))) = length ics.
Proof.
  induction ics as [|i ics IH]; intros rs sc; cbn [updateInterceptors].
  - cbn [fst snd length]. split; [lia|].
    split; [apply (Forall2_same _ sameFlight_refl)|].
    split; [apply (Forall2_same _ flagKept_refl) | reflexivity].
  - unfold stepInterceptor. destruct (Interceptor.state i); cbn [fst snd].
    + specialize (IH rs sc).
      destruct (updateInterceptors ics (rs, sc)) as [ics' [rs' sc']].
      cbn [fst snd length] in *. destruct IH as (-> & H1 & H2 & H3).
      repeat split; auto.
    + destruct (blast_credit (explode i) rs sc) as (Hsc & Hsame & Hflag).
      destruct (blast (explode i) rs sc) as [rs1 sc1]. cbn [fst snd] in *.
      specialize (IH rs1 sc1).
      destruct (updateInterceptors ics (rs1, sc1)) as [ics' [rs' sc']].
      cbn [fst snd length] in *. destruct IH as (-> & H1 & H2 & H3).
      repeat split; auto.
      * lia.
      * exact (Forall2_chain _ sameFlight_trans _ _ _ Hsame H1).
      * exact (Forall2_chain _ flagKept_trans _ _ _ Hflag H2).
Qed.

(** X8.  The interceptor phase of a frame credits exactly 20 points for each
    rocket it turns from live to destroyed, so no rocket is credited twice
    however many explosions cover it; it changes nothing of a rocket but the
    flag, never clears a flag, and keeps the order and number of rockets and
    of interceptors.  When no interceptor is EXPLODING it leaves rockets and
    score alone. *)
Theorem explosions_credit_once (ics : list Interceptor.t)
    (rs : list Rocket.t) (sc : Z) :
  snd (snd (updateInterceptors ics (rs, sc)))
  = sc + 20 * (destroyedCount (fst (snd (updateInterceptors ics (rs, sc))))
               - destroyedCount rs)
  /\ Forall2 sameFlight rs (fst (snd (updateInterceptors ics (rs, sc))))
  /\ Forall2 flagKept rs (fst (snd (updateInterceptors ics (rs, sc))))
  /\ length (fst (updateInterceptors ics (rs, sc))) = length ics
  /\ (Forall (fun i => Interceptor.state i = FLYING) ics ->
      snd (updateInterceptors ics (rs, sc)) = (rs, sc)).
Proof.
  destruct (updateInterceptors_credit ics rs sc) as (H1 & H2 & H3 & H4).
  repeat split; auto.
  clear. induction ics as [|i ics IH]; intros Hfly; cbn; [reflexivity|].
  inversion Hfly as [|? ? Hi Hrest]; subst.
  unfold stepInterceptor. rewrite Hi.
  specialize (IH Hrest).
  destruct (updateInterceptors ics (rs, sc)) as [ics' st']. exact IH.
Qed.

(** The three interceptors of a fresh salvo fly past a live rocket. *)
Lemma explosions_credit_once_witness :
  snd (updateInterceptors (interceptors gTapOnLaunchPoint)
                          ([rocketAboveCity], 0))
  = ([rocketAboveCity], 0).
Proof.
  refine (proj2 (proj2 (proj2 (proj2
            (explosions_credit_once (interceptors gTapOnLaunchPoint)
                                    [rocketAboveCity] 0)))) _).
  vm_compute. repeat constructor.
Defined.

(** * The whole component: pools, score, spawning and selection *)

Lemma simulate_pools (g : Game) :
  rockets (simulate g)
  = filter keepRocket
      (fst (snd (updateInterceptors
                   (interceptors g)
                   (fst (updateRockets (rockets g) (cities g, batteries g)),
                    score g))))
  /\ interceptors (simulate g)
     = filter keepInterceptor
         (fst (updateInterceptors
                 (interceptors g)
                 (fst (updateRockets (rockets g) (cities g, batteries g)),
                  score g)))
  /\ score (simulate g)
     = snd (snd (updateInterceptors
                   (interceptors g)
                   (fst (updateRockets (rockets g) (cities g, batteries g)),
                    score g)))
  /\ gameState (simulate g) = gameState g.
Proof.
  unfold simulate.
  destruct (updateRockets _ _) as [rs1 [cs bs]].
  destruct (updateInterceptors _ _) as [ics1 [rs2 sc]]. repeat split.
Qed.

Lemma spawnPhase_rockets (time last : float) (env : Env) (g : Game) :
  rockets (snd (spawnPhase time last env g)) = rockets g
  \/ exists r, rockets (snd (spawnPhase time last env g)) = rockets g ++ [r].
Proof.
  unfold spawnPhase, spawnRocket.
  destruct (_ <? _)%float; [|now left]. cbn [snd].
  destruct (Nat.eqb _ _); [now left|].
  destruct (nth_error _ _); [right; eexists; reflexivity | now left].
Qed.

Lemma terminate_state (closedScore : Z) (g : Game) :
  gameState (terminate closedScore g) = gameState g
  \/ gameState (terminate closedScore g) = LOST
  \/ gameState (terminate closedScore g) = ROUND_END.
Proof.
  unfold terminate, checkRoundEnd, checkGameOver.
  destruct (allDown (batteries g)); [|destruct (_ <=? _)];
    match goal with |- context [fieldSpent ?h] => destruct (fieldSpent h) end;
    cbn; auto.
Qed.

(** X9.  A frame adds at most one rocket to the pool and never adds an
    interceptor; every interceptor it leaves in the pool is FLYING or has a
    positive explosion radius; it never changes level or round; and the
    session state it leaves is the one it found, LOST or ROUND_END, never
    START, PAUSED or WON unless it started there. *)
Theorem frame_pool_bounds (time last : float) (env : Env) (g : Game) :
  (length (rockets (snd (update time last env g)))
   <= S (length (rockets g)))%nat
  /\ (length (interceptors (snd (update time last env g)))
      <= length (interceptors g))%nat
  /\ Forall Alive (interceptors (snd (update time last env g)))
  /\ level (snd (update time last env g)) = level g
  /\ round (snd (update time last env g)) = round g
  /\ (gameState (snd (update time last env g)) = gameState g
      \/ gameState (snd (update time last env g)) = LOST
      \/ gameState (snd (update time last env g)) = ROUND_END).
Proof.
  rewrite update_terminate.
  destruct (terminate_ground (score g) (afterCleanup time last env g))
    as (_ & _ & -> & -> & ->).
  rewrite terminate_rockets, afterCleanup_level.
  pose proof (terminate_state (score g) (afterCleanup time last env g)) as Hst.
  unfold afterCleanup in *. rewrite simulate_round.
  destruct (simulate_pools (snd (spawnPhase time last env g)))
    as (Hr & Hi & _ & Hs).
  rewrite Hs in Hst. rewrite Hr, Hi.
  destruct (spawnPhase_ground time last env g)
    as (Hc & Hb & _ & -> & -> & -> & Hstate).
  rewrite Hstate in Hst. rewrite Hc, Hb.
  set (rs0 := rockets (snd (spawnPhase time last env g))).
  destruct (updateInterceptors_credit (interceptors g)
              (fst (updateRockets rs0 (cities g, batteries g))) (score g))
    as (_ & Hsame & _ & Hlen).
  split; [|split; [|split; [|repeat split; auto]]].
  - eapply Nat.le_trans; [apply filter_length_le|].
    rewrite <- (Forall2_length Hsame), updateRockets_length. unfold rs0.
    destruct (spawnPhase_rockets time last env g) as [->|[r ->]];
      [lia | rewrite length_app; cbn; lia].
  - eapply Nat.le_trans; [apply filter_length_le|]. now rewrite Hlen.
  - apply Forall_forall. intros i Hin. apply filter_In in Hin.
    destruct Hin as (_ & Hkeep). unfold keepInterceptor in Hkeep.
    unfold Alive. apply orb_true_iff in Hkeep. destruct Hkeep as [H|H].
    + now right.
    + left. destruct (Interceptor.state i); [reflexivity | discriminate].
Qed.

Lemma bonus_nonneg (cs : list City.t) : BonusSafe cs -> 0 <= bonus cs.
Proof.
  unfold bonus, BonusSafe. rewrite fold_left_shields. unfold shieldSum.
  induction cs as [|c cs IH]; intros H; cbn [filter]; [cbn; lia|].
  inversion H as [|? ? Hc Hcs]; subst. specialize (IH Hcs).
  destruct (City.active c) eqn:Ha; [|exact IH].
  specialize (Hc eq_refl). cbn [length map fold_right].
  rewrite Nat2Z.inj_succ. lia.
Qed.

Lemma hitCity_BonusSafe (c : City.t) :
  City.active (hitCity c) = true -> -2 <= City.shields (hitCity c).
Proof.
  unfold hitCity. destruct (City.active c) eqn:Ha; cbn.
  - destruct (Z.leb_spec (City.shields c - 1) 0); [discriminate | lia].
  - congruence.
Qed.

Lemma updateRockets_BonusSafe (rs : list Rocket.t) :
  forall cs bs,
    BonusSafe cs -> BonusSafe (fst (snd (updateRockets rs (cs, bs)))).
Proof.
  unfold BonusSafe.
  induction rs as [|r rs IH]; intros cs bs H; cbn; [exact H|].
  unfold stepRocket. destruct (landed (moveRocket r)); cbn [fst snd].
  - match goal with
    | |- context [updateRockets rs (?c, ?b)] =>
        specialize (IH c b); destruct (updateRockets rs (c, b)) as [rs' w']
    end.
    cbn [fst snd] in *. apply IH. unfold damageCity.
    destruct (findIndex _ cs); [|exact H].
    apply Forall_mutateAt; [exact H|]. intros a _ _. apply hitCity_BonusSafe.
  - specialize (IH cs bs H). destruct (updateRockets rs (cs, bs)). exact IH.
Qed.

Lemma updateInterceptors_score_le (ics : list Interceptor.t) :
  forall rs sc, sc <= snd (snd (updateInterceptors ics (rs, sc))).
Proof.
  intros rs sc.
  destruct (updateInterceptors_credit ics rs sc) as (-> & _ & Hflag & _).
  assert (destroyedCount rs
          <= destroyedCount (fst (snd (updateInterceptors ics (rs, sc)))));
    [|lia].
  unfold destroyedCount. apply inj_le.
  induction Hflag as [|r r' l l' Hr _ IH]; cbn [filter]; [lia|].
  destruct (Rocket.destroyed r) eqn:Hd.
  - rewrite (Hr Hd). cbn. lia.
  - destruct (Rocket.destroyed r'); cbn; lia.
Qed.

(** X10.  A tap never lowers the score.  A frame never lowers it either as
    long as every active structure has at least -2 shields (in particular
    when none has a negative count): explosions only add, and the completion
    bonus is then not negative. *)
Theorem score_never_drops :
  (forall fresh x y g, score g <= score (handleCanvasClick fresh x y g))
  /\ (forall time last env g,
        BonusSafe (cities g) ->
        score g <= score (snd (update time last env g))).
Proof.
  split.
  - intros fresh x y g. unfold handleCanvasClick.
    destruct (gameState g) eqn:Hs; try lia.
    rewrite directHits_spec. cbn [directHit tapScore tapPool orb].
    destruct (existsb (tapped x y) (rockets g)); cbn [score]; [lia|].
    unfold fireInterceptor. cbn [gameState batteries].
    destruct (closestBattery x (batteries g)) as [[n b]|]; cbn [score]; lia.
  - intros time last env g Hsafe. rewrite update_terminate.
    assert (Hsim : score g <= score (afterCleanup time last env g)).
    { unfold afterCleanup.
      destruct (simulate_pools (snd (spawnPhase time last env g)))
        as (_ & _ & -> & _).
      destruct (spawnPhase_ground time last env g)
        as (_ & _ & _ & _ & -> & -> & _).
      apply updateInterceptors_score_le. }
    assert (Hbonus : 0 <= bonus (cities (afterCleanup time last env g))).
    { apply bonus_nonneg. unfold afterCleanup.
      destruct (simulate_ground (snd (spawnPhase time last env g)))
        as (-> & _).
      destruct (spawnPhase_ground time last env g) as (-> & -> & _).
      now apply updateRockets_BonusSafe. }
    revert Hsim Hbonus. generalize (afterCleanup time last env g) as g1.
    intros g1 Hsim Hbonus.
    unfold terminate, checkRoundEnd, checkGameOver.
    destruct (allDown (batteries g1)); [|destruct (_ <=? _)];
      match goal with |- context [fieldSpent ?h] => destruct (fieldSpent h) end;
      cbn [score setGameState addScore cities]; lia.
Qed.

(** The spent field at the goal: the frame adds the bonus. *)
Lemma score_never_drops_witness :
  score gGoalSpent <= score (snd (update 0 0 quietEnv gGoalSpent)).
Proof.
  apply (proj2 score_never_drops). unfold BonusSafe. cbn.
  repeat constructor; cbn; lia.
Defined.

(** The bound is sharp: structures reactivated again and again by replays
    keep their negative shield counts, and with six of them at -3 the
    completion bonus is -60. *)
Remark overdrawn_bonus_lowers_score :
  score (snd (update 0 0 quietEnv gOverdrawn)) = score gOverdrawn - 60.
Proof. vm_compute. reflexivity. Qed.

(** X11.  Whatever [spawnRocket] adds to the pool is one live rocket placed
    at its origin on the top edge (y = 0) and aimed at ground height
    (y = 780) at the x-position of a structure or battery that is active at
    that moment; its origin and target never coincide.  It adds nothing when
    no structure and no battery is active. *)
Theorem spawn_aims_at_active (env : Env) (g : Game) :
  (spawnTargets g = [] -> spawnRocket env g = g)
  /\ (rockets (spawnRocket env g) = rockets g
      \/ exists r,
           rockets (spawnRocket env g) = rockets g ++ [r]
           /\ Rocket.destroyed r = false
           /\ Rocket.pos r = Rocket.start r
           /\ Point.y (Rocket.start r) = 0%float
           /\ Point.y (Rocket.target r) = 780%float
           /\ ~ degenerate (Rocket.start r) (Rocket.target r)
           /\ ((exists c, In c (cities g) /\ City.active c = true
                          /\ Point.x (Rocket.target r) = City.x c)
               \/ (exists b, In b (batteries g) /\ Battery.active b = true
                             /\ Point.x (Rocket.target r) = Battery.x b))).
Proof.
  unfold spawnRocket. split; [intros ->; reflexivity|].
  destruct (Nat.eqb _ _); [now left|].
  destruct (nth_error (spawnTargets g) (pickTarget env)) as [t|] eqn:Ht;
    [|now left].
  right. exists (newRocket env g t).
  apply nth_error_In in Ht. unfold spawnTargets in Ht.
  assert (Hy : Point.y t = 780%float).
  { apply in_app_or in Ht. destruct Ht as [Ht|Ht];
      apply in_map_iff in Ht; destruct Ht as (e & <- & _); reflexivity. }
  cbn [rockets pushRocket newRocket Rocket.destroyed Rocket.pos Rocket.start
       Rocket.target Point.y].
  repeat split; auto.
  - intros (_ & Heq & _). cbn [Point.y] in Heq. rewrite Hy in Heq.
    vm_compute in Heq. discriminate Heq.
  - apply in_app_or in Ht. destruct Ht as [Ht|Ht];
      apply in_map_iff in Ht; destruct Ht as (e & <- & He);
      apply filter_In in He; destruct He as (Hin & Hact);
      [left | right]; exists e; auto.
Qed.

(** Nothing left standing: nothing spawned. *)
Lemma spawn_aims_at_active_witness : spawnRocket quietEnv gNoTargets = gNoTargets.
Proof.
  apply (proj1 (spawn_aims_at_active quietEnv gNoTargets)). reflexivity.
Defined.

(** * The whole component: taps, selection, idle frames *)

Lemma strike_rows (x y : float) (rs : list Rocket.t) :
  Forall2 sameFlight rs (map (strike x y) rs)
  /\ Forall2 flagKept rs (map (strike x y) rs).
Proof.
  induction rs as [|r rs (IH1 & IH2)]; cbn; split; constructor; auto.
  - unfold strike. destruct (tapped x y r); repeat split.
  - apply strike_flag.
Qed.

Lemma ammoLeft_spend (bs : list Battery.t) :
  forall n b, nth_error bs n = Some b ->
    ammoLeft (mutateAt n spend bs) = ammoLeft bs - 1.
Proof.
  unfold ammoLeft.
  induction bs as [|a bs IH]; intros [|n] b Hn; cbn in Hn; try discriminate;
    cbn [mutateAt map fold_right].
  - inversion Hn; subst. cbn [spend Battery.missiles]. lia.
  - rewrite (IH n b Hn). lia.
Qed.

(** X12.  A tap only adds.  It keeps every rocket in place and changes at
    most its destroyed flag, which it never clears; it keeps every
    interceptor already in the pool and pushes the new ones behind them; it
    leaves the structures alone; and it spends at most one missile in all,
    exactly one precisely when the session is PLAYING, no rocket was within
    reach and a battery could be selected. *)
Theorem tap_only_adds (fresh : nat -> float) (x y : float) (g : Game) :
  Forall2 sameFlight (rockets g) (rockets (handleCanvasClick fresh x y g))
  /\ Forall2 flagKept (rockets g) (rockets (handleCanvasClick fresh x y g))
  /\ (exists added,
        interceptors (handleCanvasClick fresh x y g)
        = interceptors g ++ added)
  /\ cities (handleCanvasClick fresh x y g) = cities g
  /\ ammoLeft (batteries g) - 1
     <= ammoLeft (batteries (handleCanvasClick fresh x y g))
     <= ammoLeft (batteries g)
  /\ (ammoLeft (batteries (handleCanvasClick fresh x y g))
      = ammoLeft (batteries g) - 1
      <-> gameState g = PLAYING
          /\ existsb (tapped x y) (rockets g) = false
          /\ closestBattery x (batteries g) <> None).
Proof.
  unfold handleCanvasClick.
  destruct (gameState g) eqn:Hs;
    try (repeat split;
         solve [ apply (Forall2_same _ sameFlight_refl)
               | apply (Forall2_same _ flagKept_refl)
               | exists []; now rewrite app_nil_r
               | lia
               | intros H; lia
               | intros (H & _); discriminate H ]).
  rewrite directHits_spec. cbn [directHit tapScore tapPool orb].
  destruct (strike_rows x y (rockets g)) as (Hsame & Hflag).
  destruct (existsb (tapped x y) (rockets g)) eqn:Hhit.
  - cbn [rockets interceptors cities batteries].
    split; [exact Hsame|]. split; [exact Hflag|].
    split; [eexists; reflexivity|]. split; [reflexivity|].
    split; [lia|]. split; [intros H; lia|].
    intros (_ & H & _). discriminate H.
  - unfold fireInterceptor. cbn [gameState batteries].
    destruct (closestBattery x (batteries g)) as [[n b]|] eqn:Hsel;
      cbn [rockets interceptors cities batteries].
    + destruct (closestBattery_Some x _ _ _ Hsel) as (Hn & _ & _).
      rewrite (ammoLeft_spend _ _ _ Hn).
      split; [exact Hsame|]. split; [exact Hflag|].
      split; [rewrite <- app_assoc; eexists; reflexivity|].
      split; [reflexivity|]. split; [lia|].
      split; [intros _; repeat split; discriminate|reflexivity].
    + split; [exact Hsame|]. split; [exact Hflag|].
      split; [eexists; reflexivity|]. split; [reflexivity|].
      split; [lia|]. split; [intros H; lia|].
      intros (_ & _ & H). congruence.
Qed.

Lemma closestFrom_leftmost (ax : float) (bs : list Battery.t) :
  forall pre n minDist best,
    n = length pre ->
    closest_inv ax (pre ++ bs) pre minDist best ->
    match best with
    | Some (k, b) => Leftmost ax (pre ++ bs) k b
    | None => True
    end ->
    match snd (closestFrom ax bs n minDist best) with
    | Some (k, b) => Leftmost ax (pre ++ bs) k b
    | None => True
    end.
Proof.
  induction bs as [|b bs IH]; intros pre n minDist best Hn Hinv Hleft.
  - exact Hleft.
  - cbn [closestFrom].
    assert (Hrow : pre ++ b :: bs = (pre ++ [b]) ++ bs)
      by now rewrite <- app_assoc.
    assert (Hlen : S n = length (pre ++ [b]))
      by (rewrite length_app; cbn; lia).
    destruct Hinv as (Hseen & Hbest).
    destruct (hasAmmo b) eqn:Hammo.
    + fold (gap ax b).
      destruct (gap ax b <? minDist)%float eqn:Hlt.
      * rewrite Hrow. apply IH; [exact Hlen| |].
        -- split.
           ++ intros b' Hin Hb'. apply in_app_or in Hin.
              destruct Hin as [Hin|[<-|[]]]; [|apply ltb_irrefl].
              destruct (gap ax b' <? gap ax b)%float eqn:Hcmp; [|reflexivity].
              rewrite <- (Hseen b' Hin Hb'). symmetry.
              now apply (ltb_trans _ (gap ax b)).
           ++ rewrite <- Hrow. repeat split; auto.
              rewrite Hn, nth_error_app2, Nat.sub_diag by lia. reflexivity.
        -- rewrite <- Hrow. intros j b' Hj Hnth Hb'.
           rewrite nth_error_app1 in Hnth by lia.
           apply nth_error_In in Hnth.
           destruct (gap ax b' <=? gap ax b)%float eqn:Hcmp; [|reflexivity].
           rewrite <- (Hseen b' Hnth Hb'). symmetry.
           now apply (leb_ltb_trans _ (gap ax b)).
      * rewrite Hrow. apply IH; [exact Hlen| |].
        -- split.
           ++ intros b' Hin Hb'. apply in_app_or in Hin.
              destruct Hin as [Hin|[<-|[]]]; auto.
           ++ rewrite <- Hrow. exact Hbest.
        -- rewrite <- Hrow. exact Hleft.
    + rewrite Hrow. apply IH; [exact Hlen| |].
      * split.
        -- intros b' Hin Hb'. apply in_app_or in Hin.
           destruct Hin as [Hin|[<-|[]]]; auto. congruence.
        -- rewrite <- Hrow. exact Hbest.
      * rewrite <- Hrow. exact Hleft.
Qed.

(** X13.  The battery a fire request selects is the first of the nearest:
    it is active with ammunition, no battery with ammunition is strictly
    nearer to the tap's x, and every battery with ammunition that stands
    before it in the row is strictly farther.  Between two batteries at the
    same distance the one earlier in the row (the left one) fires. *)
Theorem closest_is_first_nearest (ax : float) (bs : list Battery.t)
    (n : nat) (b : Battery.t) :
  closestBattery ax bs = Some (n, b) ->
  nth_error bs n = Some b
  /\ hasAmmo b = true
  /\ Nearest ax bs b
  /\ Leftmost ax bs n b.
Proof.
  intros Hsel.
  destruct (closestBattery_Some ax _ _ _ Hsel) as (Hn & Hammo & Hnear).
  repeat split; auto.
  pose proof (closestFrom_leftmost ax bs [] 0 infinity None eq_refl) as H.
  cbn [app] in H. unfold closestBattery in Hsel. rewrite Hsel in H.
  apply H; [|exact I]. split; [intros b' []|reflexivity].
Qed.

(** A tap at x = 300, as far from the left battery (x = 100) as from the
    center one (x = 500): the left one is selected. *)
Lemma closest_is_first_nearest_witness :
  nth_error initialBatteries 0 = Some (Battery.mk 0 100 20 20 true)
  /\ hasAmmo (Battery.mk 0 100 20 20 true) = true
  /\ Nearest 300 initialBatteries (Battery.mk 0 100 20 20 true)
  /\ Leftmost 300 initialBatteries 0 (Battery.mk 0 100 20 20 true).
Proof.
  apply closest_is_first_nearest. vm_compute. reflexivity.
Defined.

(** X14.  A frame on an empty field changes nothing at all when no spawn is
    due, some battery is active, the goal is not reached and ammunition is
    left: the component and the loop's last spawn time come back as they
    were. *)
Theorem idle_frame (time last : float) (env : Env) (g : Game) :
  rockets g = [] ->
  interceptors g = [] ->
  (Z2float (spawnInterval (level g) (round g)) <? time - last)%float = false ->
  ~ AllDown g ->
  ~ GoalReached (score g) g ->
  ammoLeft (batteries g) <> 0 ->
  update time last env g = (last, g).
Proof.
  intros Hr Hi Hdue Hdown Hgoal Hammo.
  unfold update, spawnPhase. rewrite Hdue. f_equal.
  unfold simulate. rewrite Hr, Hi. cbn [updateRockets updateInterceptors filter].
  unfold terminate, checkGameOver, checkRoundEnd. cbn [batteries level].
  rewrite <- allDown_iff in Hdown.
  destruct (allDown (batteries g)); [contradiction Hdown; reflexivity|].
  unfold GoalReached in Hgoal.
  destruct (Z.leb_spec (level g * WIN_SCORE_PER_LEVEL) (score g));
    [contradiction|].
  unfold fieldSpent. cbn [batteries rockets interceptors].
  rewrite totalMissiles_ammoLeft.
  destruct (Z.eqb_spec (ammoLeft (batteries g)) 0); [contradiction|].
  cbn [andb]. destruct g; cbn in *; subst; reflexivity.
Qed.

(** The opening game before the first spawn is due. *)
Lemma idle_frame_witness : update 16 0 quietEnv opening = (0%float, opening).
Proof.
  apply idle_frame; try reflexivity.
  - intros H. inversion H. discriminate.
  - unfold GoalReached, WIN_SCORE_PER_LEVEL. cbn. lia.
  - vm_compute. discriminate.
Defined.

(** * The whole component: interceptors and new rounds *)

Lemma stepInterceptor_Aged (st : list Rocket.t * Z) (i : Interceptor.t) :
  Aged i (fst (stepInterceptor st i)).
Proof.
  unfold Aged, stepInterceptor.
  destruct (Interceptor.state i) eqn:Hs; cbn [fst].
  - unfold fly.
    match goal with |- context [if ?c then _ else _] => destruct c end;
      cbn; repeat split; auto; intros; congruence.
  - unfold explode. cbn. rewrite Hs. repeat split; auto; try congruence.
    + intros Hlt. apply Z.ltb_lt in Hlt. now rewrite Hlt.
    + intros Hge. apply Z.ltb_ge in Hge. now rewrite Hge.
Qed.

(** X15.  Through the interceptor loop of a frame every interceptor keeps its
    id, origin, target, speed and nominal maximum radius, and its phase only
    moves forward: an EXPLODING interceptor stays EXPLODING, does not move,
    ages by one tick and changes radius by exactly 2 (up before tick 30, down
    from tick 30 on), while a FLYING one keeps radius and timer. *)
Theorem interceptors_age_one_way (ics : list Interceptor.t)
    (st : list Rocket.t * Z) :
  Forall2 Aged ics (fst (updateInterceptors ics st)).
Proof.
  revert st. induction ics as [|i ics IH]; intros st; cbn; [constructor|].
  pose proof (stepInterceptor_Aged st i) as Hi.
  destruct (stepInterceptor st i) as [i' st'].
  specialize (IH st'). destruct (updateInterceptors ics st') as [ics'' st''].
  cbn in *. constructor; assumption.
Qed.

Lemma refill_by_identity (bs bs' : list Battery.t) :
  map batteryIdentity bs = map batteryIdentity bs' ->
  map refill bs = map refill bs'.
Proof.
  intros H.
  transitivity (map (fun p => Battery.mk (fst (fst p)) (snd (fst p))
                                         (snd p) (snd p) true)
                    (map batteryIdentity bs)).
  - rewrite map_map. apply map_ext. now intros [].
  - rewrite H, map_map. apply map_ext. now intros [].
Qed.

Lemma reachable_refill (g : Game) :
  Reachable g -> map refill (batteries g) = initialBatteries.
Proof.
  intros Hg. pose proof (reachable_identity g Hg) as H.
  unfold identity in H. inversion H as [[Hc Hb]].
  rewrite (refill_by_identity _ initialBatteries Hb). reflexivity.
Qed.

(** X16.  Wherever the program is, a new round, a new level (below level
    10), a replay, a restart or an exit to the menu hands over the opening
    battery row: three active batteries with 20, 40 and 20 missiles, 80 in
    all.  Hence a round never begins lost or with its ammunition spent. *)
Theorem rounds_begin_fully_armed (g : Game) :
  Reachable g ->
  batteries (nextRound g) = initialBatteries
  /\ batteries (replayPreviousLevel g) = initialBatteries
  /\ batteries (resetGame g) = initialBatteries
  /\ batteries (exitToMenu g) = initialBatteries
  /\ (level g < MAX_LEVELS -> batteries (nextLevel g) = initialBatteries)
  /\ ammoLeft (batteries (nextRound g)) = 80
  /\ ~ AllDown (nextRound g)
  /\ ~ Spent (nextRound g).
Proof.
  intros Hg. pose proof (reachable_refill g Hg) as H.
  unfold nextRound, replayPreviousLevel, resetGame, exitToMenu, nextLevel,
    AllDown, Spent.
  cbn [batteries]. rewrite H.
  repeat split; auto.
  - intros Hl. destruct (Z.leb_spec MAX_LEVELS (level g)); [lia|].
    cbn [batteries]. reflexivity.
  - intros Hdown. inversion Hdown. discriminate.
  - intros (Hammo & _). vm_compute in Hammo. discriminate Hammo.
Qed.

(** The fresh game after a salvo of the center battery. *)
Lemma rounds_begin_fully_armed_witness :
  batteries
    (nextRound (handleCanvasClick (freshId quietEnv) 480 300
                                  (resetGame mounted)))
  = initialBatteries.
Proof.
  apply rounds_begin_fully_armed.
  apply reach_tap, reach_reset, reach_mounted.
Defined.

(** X17.  Wherever the program is, the ground is the opening one: six
    structures with ids 1 to 6 at x = 200, 300, 400, 600, 700, 800 and three
    batteries with ids 0, 1, 2 at x = 100, 500, 900 and maxima 20, 40, 20, in
    that order.  So the triple-firing battery (id 1) is always the center
    one, and no two entities ever share an x-position. *)
Theorem ground_is_fixed (g : Game) :
  Reachable g ->
  map City.id (cities g) = [1; 2; 3; 4; 5; 6]
  /\ map City.x (cities g) = [200; 300; 400; 600; 700; 800]%float
  /\ map Battery.id (batteries g) = [0; 1; 2]
  /\ map Battery.x (batteries g) = [100; 500; 900]%float
  /\ map Battery.maxMissiles (batteries g) = [20; 40; 20]
  /\ DisjointLayout (cities g) (batteries g).
Proof.
  intros Hg. pose proof (reachable_identity g Hg) as H.
  pose proof (reachable_abscissas g Hg) as Hx.
  pose proof (f_equal fst H) as Hc. pose proof (f_equal snd H) as Hb.
  pose proof (f_equal fst Hx) as Hcx. pose proof (f_equal snd Hx) as Hbx.
  unfold identity, abscissas in Hc, Hb, Hcx, Hbx.
  cbn [fst snd] in Hc, Hb, Hcx, Hbx. clear H Hx.
  split; [|split; [|split; [|split; [|split]]]].
  - apply (f_equal (map fst)) in Hc. rewrite map_map in Hc. exact Hc.
  - exact Hcx.
  - apply (f_equal (map (fun p => fst (fst p)))) in Hb.
    rewrite map_map in Hb. exact Hb.
  - exact Hbx.
  - apply (f_equal (map snd)) in Hb. rewrite map_map in Hb. exact Hb.
  - apply (DisjointLayout_abscissas initialCities _ initialBatteries _
             Hcx Hbx).
    apply initial_layout_disjoint.
Qed.

(** The fresh game after a spawning frame and a tap. *)
Lemma ground_is_fixed_witness :
  map Battery.id
      (batteries (handleCanvasClick (freshId quietEnv) 480 300
                    (snd (update 2000 0 quietEnv (resetGame mounted)))))
  = [0; 1; 2].
Proof.
  refine (proj1 (proj2 (proj2 (ground_is_fixed _ _)))).
  apply reach_tap, reach_frame, reach_reset, reach_mounted.
Defined.

(** * Spawn policy on the states the program reaches *)







